(** * NES black-box attack (realsafe/attack/nes.py): embedding and properties

    The class [NES] builds a TensorFlow graph once, in [__init__], and then
    drives it from Python in [attack].  The embedding keeps that split:

    - the graph nodes of [__init__] ([perts], [points], [loss], [grad],
      [x_adv_next], the assign steps) are pure functions of the session
      variables and of the batch drawn by [tf.random.normal];
    - the session variables are a record that is passed explicitly;
    - [attack] is a loop over the Python locals [last_loss], [queries], [lr].

    Numbers.  Tensor entries, [eps], [sigma] and the learning rate are
    floats in the source; they are real numbers ([R]) here, so rounding
    and overflow are outside the model.  Division is the total division of
    the reals: where the source divides by zero the floats are NaN or
    infinite and the value of the model means nothing, so the properties
    that speak of the values of a pass assume that its divisors are not 0
    ([no_zero_divisor]).  A tensor is the list of its entries (the shape
    [x_shape] flattened).  Labels are class indices ([nat]); [queries] and
    [max_queries] are Python integers ([Z]). *)

From Stdlib Require Import String Reals Lra Lia ZArith Bool Arith List.
Import ListNotations.

Open Scope R_scope.

(** ** Tensors *)

Abbreviation tensor := (list R).

Fixpoint map2 {A B C : Type} (f : A -> B -> C) (l : list A) (m : list B)
  : list C :=
  match l, m with
  | a :: l', b :: m' => f a b :: map2 f l' m'
  | _, _ => []
  end.

Definition zeros (n : nat) : tensor := repeat 0 n.
Definition tadd (a b : tensor) : tensor := map2 Rplus a b.
Definition tsub (a b : tensor) : tensor := map2 Rminus a b.
Definition tneg (a : tensor) : tensor := map Ropp a.
(** scalar * tensor (broadcast) *)
Definition tscale (c : R) (a : tensor) : tensor := map (Rmult c) a.
(** tensor / scalar (broadcast) *)
Definition tdiv (a : tensor) (c : R) : tensor := map (fun v => v / c) a.

Definition reduce_sum (a : list R) : R := fold_right Rplus 0 a.

(** [tf.reduce_max] along an axis of positive size.  On an empty axis
    TensorFlow returns the least float, which has no real counterpart; the
    model returns 0 there. *)
Fixpoint reduce_max (a : list R) : R :=
  match a with
  | [] => 0
  | [v] => v
  | v :: a' => Rmax v (reduce_max a')
  end.

(** [tf.norm]: the Euclidean norm of all entries. *)
Definition norm (a : tensor) : R := sqrt (reduce_sum (map (fun v => v * v) a)).

(** [tf.sign] on one entry. *)
Definition sign (v : R) : R :=
  if Rlt_dec 0 v then 1 else if Rlt_dec v 0 then -1 else 0.

Definition tsign (a : tensor) : tensor := map sign a.

(** [tf.clip_by_value t lo hi] is [maximum (minimum t hi) lo]. *)
Definition clip_by_value (a : tensor) (lo hi : R) : tensor :=
  map (fun v => Rmax (Rmin v hi) lo) a.

(** [tf.clip_by_norm t c] computes [t * c / maximum (norm t) c]: [t]
    itself when its norm is at most a positive [c], and [t] scaled down to
    the norm [c] when its norm is larger. *)
Definition clip_by_norm_divisor (a : tensor) (c : R) : R := Rmax (norm a) c.

Definition clip_by_norm (a : tensor) (c : R) : tensor :=
  tdiv (tscale c a) (clip_by_norm_divisor a c).

(** [tf.one_hot i depth] with on-value 1 and off-value 0; an index outside
    [0, depth) gives the all-zero row. *)
Fixpoint one_hot (i : nat) (depth : nat) : list R :=
  match depth with
  | O => []
  | S d => match i with
           | O => 1 :: repeat 0 d
           | S i' => 0 :: one_hot i' d
           end
  end.

(** [tf.reduce_sum] / [tf.reduce_mean] along axis 0 of a batch of tensors of
    [n] entries each. *)
Definition reduce_sum0 (n : nat) (b : list tensor) : tensor :=
  fold_right tadd (zeros n) b.

Definition reduce_mean0 (n : nat) (b : list tensor) : tensor :=
  tdiv (reduce_sum0 n b) (INR (length b)).

(** [np.mean] of a vector. *)
Definition np_mean (a : list R) : R := reduce_sum a / INR (length a).

(** [np.max (np.abs a)], as the logger reports the distortion. *)
Definition max_abs (a : tensor) : R := fold_right Rmax 0 (map Rabs a).

(** ** The classifier (external collaborator) *)

Record Model := mkModel {
  x_shape : nat;                 (* number of entries of one input *)
  n_class : nat;
  x_min : R;
  x_max : R;
  (* logits and predicted label of one input; the source calls it on
     batches, which is this function on every row *)
  logits_and_labels : tensor -> list R * nat
}.

(** ** [NES.__init__] *)

Inductive exn := NotImplementedError.

Inductive result (A : Type) :=
| Ok (a : A)
| Raise (e : exn).
Arguments Ok {A} a.
Arguments Raise {A} e.

(** The branch of lines 60-68 that was taken when the graph was built. *)
Inductive update_rule := rule_l_2 | rule_l_inf.

Definition select_update_rule (distance_metric : string) : result update_rule :=
  if string_dec distance_metric "l_2"%string then Ok rule_l_2
  else if string_dec distance_metric "l_inf"%string then Ok rule_l_inf
  else Raise NotImplementedError.

(** The TensorFlow variables of the session. *)
Record Vars := mkVars {
  x_var : tensor;
  x_adv_var : tensor;
  ys_var : list nat;
  eps_var : R;
  sigma_var : R;
  lr_var : R
}.

Definition set_x_adv_var (v : Vars) (t : tensor) : Vars :=
  mkVars (x_var v) t (ys_var v) (eps_var v) (sigma_var v) (lr_var v).
Definition set_lr_var (v : Vars) (r : R) : Vars :=
  mkVars (x_var v) (x_adv_var v) (ys_var v) (eps_var v) (sigma_var v) r.
Definition set_eps_var (v : Vars) (r : R) : Vars :=
  mkVars (x_var v) (x_adv_var v) (ys_var v) r (sigma_var v) (lr_var v).
Definition set_sigma_var (v : Vars) (r : R) : Vars :=
  mkVars (x_var v) (x_adv_var v) (ys_var v) (eps_var v) r (lr_var v).
Definition set_ys_var (v : Vars) (ys : list nat) : Vars :=
  mkVars (x_var v) (x_adv_var v) ys (eps_var v) (sigma_var v) (lr_var v).
(** [setup_x_step]: both [x_var] and [x_adv_var] are assigned the input. *)
Definition setup_x_step (v : Vars) (x : tensor) : Vars :=
  mkVars x x (ys_var v) (eps_var v) (sigma_var v) (lr_var v).

(** The attributes that [__init__] sets. *)
Record NES := mkNES {
  model : Model;
  goal : string;
  distance_metric : string;
  rule : update_rule;
  samples_per_draw : nat
}.

Definition init_vars (m : Model) (spd : nat) : Vars :=
  mkVars (zeros (x_shape m)) (zeros (x_shape m)) (repeat O spd) 0 0 0.

(** [NES(model, goal, distance_metric, session, samples_per_draw)]: the
    object and the initial values of its variables, or the exception of
    line 68.  [samples_per_draw] is a tensor dimension, hence a natural
    number; it is rounded down to an even number (line 27). *)
Definition NES_init (m : Model) (goal distance_metric : string)
    (samples_per_draw : nat) : result (NES * Vars) :=
  let spd := (Nat.div samples_per_draw 2 * 2)%nat in
  match select_update_rule distance_metric with
  | Ok r => Ok (mkNES m goal distance_metric r spd, init_vars m spd)
  | Raise e => Raise e
  end.

(** ** The graph of [__init__] *)

Section Graph.
Variable self : NES.
Variable v : Vars.

(** Line 42: the label predicted for [x_adv_var]. *)
Definition label_pred : nat := snd (logits_and_labels (model self) (x_adv_var v)).

(** Lines 44-45: [half] is the value of [tf.random.normal], a batch of
    [samples_per_draw // 2] tensors. *)
Definition perts (half : list tensor) : list tensor := half ++ map tneg half.

(** Line 47. *)
Definition points (half : list tensor) : list tensor :=
  map (fun p => tadd (x_adv_var v) (tscale (sigma_var v) p)) (perts half).

(** Lines 50-53, for one row: the margin logit loss. *)
Definition margin_loss (y : nat) (logits : list R) : R :=
  let logits_mask := one_hot y (n_class (model self)) in
  let logit_this := reduce_sum (map2 Rmult logits_mask logits) in
  let logit_that :=
    reduce_max (map2 (fun l m => l - 99999 * m) logits logits_mask) in
  logit_that - logit_this.

(** Lines 48-53: [self.loss], one entry per sample. *)
Definition loss (half : list tensor) : list R :=
  map2 margin_loss (ys_var v)
       (map (fun p => fst (logits_and_labels (model self) p)) (points half)).

(** Lines 55-58: the estimated gradient.  It divides by the batch size
    (inside [tf.reduce_mean]) and by [sigma]; the value is that of the
    source where neither is 0. *)
Definition grad (half : list tensor) : tensor :=
  let grads := map2 tscale (loss half) (perts half) in
  let g := tdiv (reduce_mean0 (x_shape (model self)) grads) (sigma_var v) in
  if string_dec (goal self) "ut"%string then g else tneg g.

(** Line 61. *)
Definition grad_norm (g : tensor) : R := Rmax (1 / 10 ^ 12) (norm g).

(** Lines 62 and 65: the new offset from [x_var], before projection. *)
Definition x_adv_delta (g : tensor) : tensor :=
  match rule self with
  | rule_l_2 =>
      tadd (tsub (x_adv_var v) (x_var v))
           (tdiv (tscale (lr_var v) g) (grad_norm g))
  | rule_l_inf =>
      tadd (tsub (x_adv_var v) (x_var v)) (tscale (lr_var v) (tsign g))
  end.

(** Lines 63 and 66: the candidate before the value-range clipping. *)
Definition x_adv_projected (g : tensor) : tensor :=
  match rule self with
  | rule_l_2 => tadd (x_var v) (clip_by_norm (x_adv_delta g) (eps_var v))
  | rule_l_inf =>
      tadd (x_var v)
           (clip_by_value (x_adv_delta g) (- eps_var v) (eps_var v))
  end.

(** Line 69. *)
Definition x_adv_next (g : tensor) : tensor :=
  clip_by_value (x_adv_projected g) (x_min (model self)) (x_max (model self)).

(** Line 70. *)
Definition update_x_adv_step (half : list tensor) : Vars :=
  set_x_adv_var v (x_adv_next (grad half)).

(** Line 118: one [session.run] evaluates [loss] and the assignment on
    the same draw; the loss is the one at the candidate before the
    assignment. *)
Definition run_loss_and_update (half : list tensor) : list R * Vars :=
  (loss half, update_x_adv_step half).
End Graph.

(** ** [NES.config] *)

(** The attributes that [config] sets on the object.  [attack] reads all of
    them, so it is called on a configured object. *)
Record Config := mkConfig {
  max_queries : Z;
  lr : R;
  min_lr : R;
  lr_tuning : bool;
  plateau_length : Z
}.

(** The keyword arguments of [config]; [None] is an absent keyword. *)
Record Kwargs := mkKwargs {
  kw_magnitude : option R;
  kw_max_queries : option Z;
  kw_sigma : option R;
  kw_lr : option R;
  kw_min_lr : option R;
  kw_lr_tuning : option bool;
  kw_plateau_length : option Z
}.

Definition or_keep {A : Type} (o : option A) (old : A) : A :=
  match o with Some a => a | None => old end.

Definition config (c : Config) (v : Vars) (kw : Kwargs) : Config * Vars :=
  let v1 := match kw_magnitude kw with
            | Some e => set_eps_var v e | None => v end in
  let v2 := match kw_sigma kw with
            | Some s => set_sigma_var v1 s | None => v1 end in
  (mkConfig (or_keep (kw_max_queries kw) (max_queries c))
            (or_keep (kw_lr kw) (lr c))
            (or_keep (kw_min_lr kw) (min_lr c))
            (or_keep (kw_lr_tuning kw) (lr_tuning c))
            (or_keep (kw_plateau_length kw) (plateau_length c)),
   v2).

(** ** [NES.attack] *)

Definition Rltb (a b : R) : bool := if Rlt_dec a b then true else false.

(** Python's [l[s:]] for an integer [s] of either sign. *)
Definition py_slice_from {A : Type} (s : Z) (l : list A) : list A :=
  let n := Z.of_nat (length l) in
  let s' := if (s <? 0)%Z then Z.max (s + n) 0 else Z.min s n in
  skipn (Z.to_nat s') l.

(** The Python locals of the loop. *)
Record Locals := mkLocals {
  last_loss : list R;
  queries : Z;
  cur_lr : R      (* the local [lr] *)
}.

Section Attack.
Variable self : NES.
Variable cfg : Config.
Variables y y_target : nat.

(** Lines 147-153. *)
Definition is_adversarial (v : Vars) : bool :=
  let label := label_pred self v in
  if (String.eqb (goal self) "ut" || String.eqb (goal self) "tm")%bool
  then negb (Nat.eqb label y)
  else Nat.eqb label y_target.

(** Lines 102-104. *)
Definition setup_ys_step (v : Vars) : Vars :=
  set_ys_var v (repeat (if String.eqb (goal self) "ut" then y else y_target)
                       (samples_per_draw self)).

(** Lines 126-128 and 130-132. *)
Definition halve_lr (l : Locals) (v : Vars) : Locals * Vars :=
  let lr' := Rmax (cur_lr l / 2) (min_lr cfg) in
  (mkLocals [] (queries l) lr', set_lr_var v lr').

(** Lines 124-132, on the window [w] that line 123 has just cut. *)
Definition plateau (w : list R) : bool :=
  (Z.of_nat (length w) =? plateau_length cfg)%Z &&
  ((String.eqb (goal self) "ut" && Rltb (last w 0) (hd 0 w))
   || (negb (String.eqb (goal self) "ut") && Rltb (hd 0 w) (last w 0))).

(** Line 123. *)
Definition window (l : Locals) (loss_now : list R) : list R :=
  py_slice_from (- plateau_length cfg) (last_loss l ++ [np_mean loss_now]).

(** Lines 121-132. *)
Definition tune_lr (loss_now : list R) (l : Locals) (v : Vars)
  : Locals * Vars :=
  if lr_tuning cfg then
    let w := window l loss_now in
    if plateau w then halve_lr l v
    else (mkLocals w (queries l) (cur_lr l), v)
  else (l, v).

(** Lines 118-132: one pass through the loop body, up to the success
    check.  [half] is the draw of this pass. *)
Definition loop_body (half : list tensor) (l : Locals) (v : Vars)
  : Locals * Vars :=
  let '(loss_now, v1) := run_loss_and_update self v half in
  let l1 := mkLocals (last_loss l)
                     (queries l + Z.of_nat (samples_per_draw self))
                     (cur_lr l) in
  tune_lr loss_now l1 v1.

(** Lines 117-145.  The loop need not end (with [samples_per_draw = 0] the
    counter never moves), so it is driven by the list of draws, one per
    pass: [None] means that the draws ran out before the loop ended.  The
    result is the returned tensor and [details['queries']]. *)
Fixpoint attack_loop (draws : list (list tensor)) (l : Locals) (v : Vars)
  : option (tensor * Z) :=
  if (queries l <? max_queries cfg)%Z then
    match draws with
    | [] => None
    | half :: draws' =>
        let '(l', v') := loop_body half l v in
        if is_adversarial v' then Some (x_adv_var v', queries l')
        else attack_loop draws' l' v'
    end
  else Some (x_adv_var v, queries l).

(** Lines 101-109: the state in which line 111 is reached. *)
Definition attack_setup (v : Vars) (x : tensor) : Locals * Vars :=
  let v1 := setup_ys_step (setup_x_step v x) in
  (mkLocals [] 0%Z (lr cfg), set_lr_var v1 (lr cfg)).

(** [attack(x, y, y_target)]. *)
Definition attack (draws : list (list tensor)) (v : Vars) (x : tensor)
  : option (tensor * Z) :=
  let '(l, v1) := attack_setup v x in
  if is_adversarial v1 then Some (x, queries l)
  else attack_loop draws l v1.
End Attack.

(** ** Vocabulary of the properties *)

(** Every entry lies in the model's valid value range. *)
Definition in_range (m : Model) (a : tensor) : Prop :=
  Forall (fun u => x_min m <= u <= x_max m) a.

(** The distance constraint of the metric, for a candidate [a] around the
    original [x]: [norm (a - x) <= eps] for ['l_2'] and
    [max (abs (a - x)) <= eps] for ['l_inf']. *)
Definition in_ball (r : update_rule) (x : tensor) (eps : R) (a : tensor)
  : Prop :=
  match r with
  | rule_l_2 => norm (tsub a x) <= eps
  | rule_l_inf => max_abs (tsub a x) <= eps
  end.

(** The sum of squares under the square root of [norm]. *)
Definition sumsq (a : tensor) : R := reduce_sum (map (fun u => u * u) a).

(** The list without its entry at index [i]. *)
Fixpoint remove_nth {A : Type} (i : nat) (l : list A) : list A :=
  match l with
  | [] => []
  | a :: l' => match i with
               | O => l'
               | S i' => a :: remove_nth i' l'
               end
  end.

(** The margin as the specification words it: the largest score of a class
    other than [label], minus the score of [label]. *)
Definition margin_spec (label : nat) (scores : list R) : R :=
  reduce_max (remove_nth label scores) - nth label scores 0.

(** ** Two small classifiers, for the examples *)

(** One input entry [p], two classes with scores [p * p] and [0]; the
    predicted label is always 0. *)
Definition square_logits (p : tensor) : list R * nat :=
  ([hd 0 p * hd 0 p; 0], O).

Definition toy_model : Model := mkModel 1 2 (-10) 10 square_logits.

(** What [NES(toy_model, 'ut', 'l_inf', session, 2)] builds. *)
Definition toy_nes : NES := mkNES toy_model "ut" "l_inf" rule_l_inf 2.

(** The same classifier attacked in the ['l_2'] metric. *)
Definition toy_nes_l_2 : NES := mkNES toy_model "ut" "l_2" rule_l_2 2.

(** [config(max_queries=mq, lr=4, min_lr=m, lr_tuning=True,
    plateau_length=2)]. *)
Definition toy_cfg (mq : Z) (m : R) : Config := mkConfig mq 4 m true 2.

(** The variables with origin [1], candidate [a], [magnitude=10],
    [sigma=1] and learning rate [r]. *)
Definition toy_vars (a : R) (r : R) : Vars := mkVars [1] [a] [O; O] 10 1 r.

(** Scores [3] and [1] at every input; the predicted label is always 0. *)
Definition constant_logits (p : tensor) : list R * nat := ([3; 1], O).

Definition constant_model : Model := mkModel 1 2 0 1 constant_logits.

Definition tm_nes : NES := mkNES constant_model "tm" "l_inf" rule_l_inf 2.

Definition tm_vars : Vars := mkVars [0] [0] [O; O] 1 1 1.

(** ** Vocabulary of the further properties *)

(** The later keyword where there is one, else the earlier one: what two
    successive calls of [config] leave. *)
Definition or_else {A : Type} (later earlier : option A) : option A :=
  match later with Some _ => later | None => earlier end.

Definition kw_merge (kw1 kw2 : Kwargs) : Kwargs :=
  mkKwargs (or_else (kw_magnitude kw2) (kw_magnitude kw1))
           (or_else (kw_max_queries kw2) (kw_max_queries kw1))
           (or_else (kw_sigma kw2) (kw_sigma kw1))
           (or_else (kw_lr kw2) (kw_lr kw1))
           (or_else (kw_min_lr kw2) (kw_min_lr kw1))
           (or_else (kw_lr_tuning kw2) (kw_lr_tuning kw1))
           (or_else (kw_plateau_length kw2) (kw_plateau_length kw1)).

(** [config()] with no keyword at all. *)
Definition kw_none : Kwargs := mkKwargs None None None None None None None.

(** What [NES(toy_model, 'ut', 'l_inf', session, 1)] builds: line 27 rounds
    [samples_per_draw] down to 0. *)
Definition toy_nes_0 : NES := mkNES toy_model "ut" "l_inf" rule_l_inf 0.

(** ** Where the float operations are defined *)

(** The divisors of one pass: the batch size under [tf.reduce_mean] and
    [sigma] (line 56) and, for ['l_2'], the divisor inside
    [tf.clip_by_norm] (line 63); [grad_norm] of line 61 is never 0.  Where
    one of them is 0 the floats of the source are NaN or infinite, and the
    real numbers of this file say nothing about them. *)
Definition no_zero_divisor (self : NES) (v : Vars) (half : list tensor)
  : Prop :=
  map2 tscale (loss self v half) (perts half) <> [] /\
  sigma_var v <> 0 /\
  (rule self = rule_l_2 ->
   clip_by_norm_divisor (x_adv_delta self v (grad self v half)) (eps_var v)
   <> 0).

(** The variables at the start of a run from [[1]] with [magnitude=-1],
    and with [magnitude=0]. *)
Definition neg_eps_vars : Vars := mkVars [1] [1] [O; O] (-1) 1 4.

Definition zero_eps_vars : Vars := mkVars [1] [1] [O; O] 0 1 4.

(** [config(max_queries=4, lr=-4, min_lr=-5, lr_tuning=True,
    plateau_length=2)]. *)
Definition neg_lr_cfg : Config := mkConfig 4 (-4) (-5) true 2.

(** * Properties *)

(** Rewrites [Rmax], [Rmin] and real comparisons on closed arguments to
    their values. *)
Ltac as_value :=
  repeat match goal with
  | |- context [Rmax ?a ?b] =>
      first [ rewrite (Rmax_left a b) by lra | rewrite (Rmax_right a b) by lra ]
  | |- context [Rmin ?a ?b] =>
      first [ rewrite (Rmin_left a b) by lra | rewrite (Rmin_right a b) by lra ]
  | |- context [Rlt_dec ?a ?b] =>
      destruct (Rlt_dec a b); [ try lra | try lra ]
  end.

(** ** Tensor arithmetic *)

Lemma tadd_zeros_r (n : nat) (a : tensor) :
  length a = n -> tadd a (zeros n) = a.
Proof.
  unfold tadd, zeros. revert n.
  induction a as [ | u a IH ]; intros n H; destruct n; simpl in *;
    try discriminate; [ reflexivity | ].
  injection H as H. rewrite IH by assumption. f_equal. lra.
Qed.

Lemma tadd_length (a b : tensor) (n : nat) :
  length a = n -> length b = n -> length (tadd a b) = n.
Proof.
  unfold tadd. revert b n. induction a as [ | u a IH ]; intros b n Ha Hb;
    destruct b, n; simpl in *; try discriminate; try reflexivity.
  f_equal. apply IH; congruence.
Qed.

Lemma tsub_length (a b : tensor) (n : nat) :
  length a = n -> length b = n -> length (tsub a b) = n.
Proof.
  unfold tsub. revert b n. induction a as [ | u a IH ]; intros b n Ha Hb;
    destruct b, n; simpl in *; try discriminate; try reflexivity.
  f_equal. apply IH; congruence.
Qed.

Lemma zeros_length (n : nat) : length (zeros n) = n.
Proof. apply repeat_length. Qed.

Lemma tadd_comm (a b : tensor) : tadd a b = tadd b a.
Proof.
  unfold tadd. revert b.
  induction a as [ | u a IH ]; intros [ | w b ]; simpl; try reflexivity.
  rewrite IH. f_equal. lra.
Qed.

Lemma tadd_assoc (a b c : tensor) : tadd a (tadd b c) = tadd (tadd a b) c.
Proof.
  unfold tadd. revert b c.
  induction a as [ | u a IH ]; intros [ | w b ] [ | z c ]; simpl;
    try reflexivity.
  rewrite IH. f_equal. lra.
Qed.

Lemma tadd_tneg (n : nat) (a : tensor) :
  length a = n -> tadd a (tneg a) = zeros n.
Proof.
  unfold tadd, tneg, zeros. revert n.
  induction a as [ | u a IH ]; intros n H; destruct n; simpl in *;
    try discriminate; [ reflexivity | ].
  injection H as H. rewrite (IH n) by assumption. f_equal. lra.
Qed.

Lemma tneg_length (a : tensor) : length (tneg a) = length a.
Proof. apply length_map. Qed.

Lemma tneg_tadd (a b : tensor) : tneg (tadd a b) = tadd (tneg a) (tneg b).
Proof.
  unfold tadd, tneg. revert b.
  induction a as [ | u a IH ]; intros [ | w b ]; simpl; try reflexivity.
  rewrite IH. f_equal. lra.
Qed.

Lemma tneg_zeros (n : nat) : tneg (zeros n) = zeros n.
Proof.
  unfold tneg, zeros.
  induction n as [ | n IH ]; simpl; [ reflexivity | ].
  rewrite IH. f_equal. lra.
Qed.

Lemma tadd_tsub_cancel (a x : tensor) :
  length a = length x -> tadd x (tsub a x) = a.
Proof.
  unfold tadd, tsub. revert x.
  induction a as [ | u a IH ]; intros [ | w x ] H; simpl in *;
    try discriminate; [ reflexivity | ].
  rewrite IH by congruence. f_equal. lra.
Qed.

(** ** Batches *)

Lemma reduce_sum0_length (n : nat) (b : list tensor) :
  Forall (fun t => length t = n) b -> length (reduce_sum0 n b) = n.
Proof.
  induction 1 as [ | t b Ht Hb IH ].
  - apply zeros_length.
  - change (length (tadd t (reduce_sum0 n b)) = n).
    apply tadd_length; assumption.
Qed.

(** Summing a batch followed by a second batch [c]. *)
Lemma reduce_sum0_app (n : nat) (b c : list tensor) :
  Forall (fun t => length t = n) b ->
  Forall (fun t => length t = n) c ->
  reduce_sum0 n (b ++ c) = tadd (reduce_sum0 n b) (reduce_sum0 n c).
Proof.
  intros Hb Hc. induction Hb as [ | t b Ht Hb IH ].
  - change (reduce_sum0 n c = tadd (zeros n) (reduce_sum0 n c)).
    rewrite tadd_comm. symmetry. apply (tadd_zeros_r n).
    apply reduce_sum0_length. assumption.
  - change (tadd t (reduce_sum0 n (b ++ c))
            = tadd (tadd t (reduce_sum0 n b)) (reduce_sum0 n c)).
    rewrite IH. apply tadd_assoc.
Qed.

Lemma reduce_sum0_neg (n : nat) (b : list tensor) :
  reduce_sum0 n (map tneg b) = tneg (reduce_sum0 n b).
Proof.
  induction b as [ | t b IH ].
  - symmetry. apply tneg_zeros.
  - change (tadd (tneg t) (reduce_sum0 n (map tneg b))
            = tneg (tadd t (reduce_sum0 n b))).
    rewrite IH. symmetry. apply tneg_tadd.
Qed.

Lemma Forall_tneg_length (n : nat) (b : list tensor) :
  Forall (fun t => length t = n) b ->
  Forall (fun t => length t = n) (map tneg b).
Proof.
  induction 1; simpl; constructor; [ rewrite tneg_length | ]; assumption.
Qed.

Lemma map2_repeat {A B C : Type} (f : A -> B -> C) (a : A) (l : list B) (n : nat) :
  (length l <= n)%nat -> map2 f (repeat a n) l = map (f a) l.
Proof.
  revert n. induction l as [ | b l IH ]; intros n H.
  - destruct n; reflexivity.
  - destruct n; simpl in *; [ lia | ]. rewrite IH by lia. reflexivity.
Qed.

(** ** Norms and clipping *)

Lemma sumsq_nonneg (a : tensor) : 0 <= sumsq a.
Proof.
  induction a as [ | u a IH ]; unfold sumsq in *; simpl; [ lra | nra ].
Qed.

Lemma norm_nonneg (a : tensor) : 0 <= norm a.
Proof. apply sqrt_pos. Qed.

Lemma norm_sqr (a : tensor) : norm a * norm a = sumsq a.
Proof. apply sqrt_sqrt, sumsq_nonneg. Qed.

Lemma sumsq_zeros (n : nat) : sumsq (zeros n) = 0.
Proof.
  unfold sumsq, zeros. induction n as [ | n IH ]; simpl; [ reflexivity | ].
  rewrite IH. lra.
Qed.

Lemma norm_zeros (n : nat) : norm (zeros n) = 0.
Proof.
  unfold norm. fold (sumsq (zeros n)). rewrite sumsq_zeros. apply sqrt_0.
Qed.

Lemma clip_entry_offset (lo hi u d : R) :
  lo <= u <= hi -> Rabs (Rmax (Rmin (u + d) hi) lo - u) <= Rabs d.
Proof.
  intros [Hlo Hhi].
  apply Rabs_le.
  pose proof (Rle_abs d) as H1. pose proof (Rle_abs (- d)) as H2.
  rewrite Rabs_Ropp in H2.
  destruct (Rle_dec (u + d) hi) as [Ha | Ha].
  - rewrite (Rmin_left _ _ Ha).
    destruct (Rle_dec lo (u + d)) as [Hb | Hb].
    + rewrite (Rmax_left _ _ Hb). lra.
    + rewrite Rmax_right by lra. lra.
  - rewrite Rmin_right by lra. rewrite Rmax_left by lra. lra.
Qed.

Lemma clip_entry_range (lo hi u : R) :
  lo <= hi -> lo <= Rmax (Rmin u hi) lo <= hi.
Proof.
  intros H. unfold Rmax, Rmin.
  repeat match goal with
         | |- context [Rle_dec ?a ?b] => destruct (Rle_dec a b)
         end; lra.
Qed.

Lemma sqr_le_of_abs (a b : R) : Rabs a <= Rabs b -> a * a <= b * b.
Proof. intros H. apply Rsqr_le_abs_1 in H. exact H. Qed.

Lemma clip_offset_sumsq (lo hi : R) (x : tensor) :
  Forall (fun u => lo <= u <= hi) x ->
  forall d : tensor,
    sumsq (tsub (clip_by_value (tadd x d) lo hi) x) <= sumsq d.
Proof.
  induction 1 as [ | u x Hu Hx IH ]; intros d.
  - simpl. apply sumsq_nonneg.
  - destruct d as [ | e d ].
    + simpl. apply Rle_refl.
    + specialize (IH d). unfold sumsq in *. simpl.
      pose proof (sqr_le_of_abs _ _ (clip_entry_offset lo hi u e Hu)) as Hsq.
      apply Rplus_le_compat; [ exact Hsq | exact IH ].
Qed.

Lemma clip_offset_abs (lo hi eps : R) (x : tensor) :
  Forall (fun u => lo <= u <= hi) x ->
  forall d : tensor,
    Forall (fun e => Rabs e <= eps) d ->
    Forall (fun e => Rabs e <= eps)
           (tsub (clip_by_value (tadd x d) lo hi) x).
Proof.
  induction 1 as [ | u x Hu Hx IH ]; intros d Hd.
  - constructor.
  - destruct Hd as [ | e d He Hd ].
    + constructor.
    + simpl. constructor.
      * pose proof (clip_entry_offset lo hi u e Hu). lra.
      * apply IH. assumption.
Qed.

Lemma clip_by_value_range (lo hi : R) (a : tensor) :
  lo <= hi -> Forall (fun u => lo <= u <= hi) (clip_by_value a lo hi).
Proof.
  intros H. induction a as [ | u a IH ]; simpl; constructor.
  - apply clip_entry_range. assumption.
  - exact IH.
Qed.

Lemma clip_sym_abs (eps : R) (a : tensor) :
  0 <= eps -> Forall (fun e => Rabs e <= eps) (clip_by_value a (- eps) eps).
Proof.
  intros H. induction a as [ | u a IH ]; simpl; constructor.
  - pose proof (clip_entry_range (- eps) eps u ltac:(lra)) as Hr.
    apply Rabs_le. lra.
  - exact IH.
Qed.

Lemma max_abs_le (eps : R) (a : tensor) :
  0 <= eps -> Forall (fun e => Rabs e <= eps) a -> max_abs a <= eps.
Proof.
  intros H. induction 1 as [ | e a He Ha IH ]; unfold max_abs in *; simpl.
  - assumption.
  - apply Rmax_lub; assumption.
Qed.

Lemma max_abs_ge (eps : R) (a : tensor) :
  max_abs a <= eps -> Forall (fun e => Rabs e <= eps) a.
Proof.
  induction a as [ | e a IH ]; unfold max_abs in *; simpl; intros H.
  - constructor.
  - constructor.
    + pose proof (Rmax_l (Rabs e) (fold_right Rmax 0 (map Rabs a))). lra.
    + apply IH.
      pose proof (Rmax_r (Rabs e) (fold_right Rmax 0 (map Rabs a))). lra.
Qed.

Lemma sumsq_scaled (c n : R) (a : tensor) :
  sumsq (tdiv (tscale c a) n) = (c / n) * (c / n) * sumsq a.
Proof.
  induction a as [ | u a IH ]; unfold sumsq, tdiv, tscale in *; simpl.
  - lra.
  - rewrite IH. unfold Rdiv. ring.
Qed.

Lemma norm_tdiv_tscale (c m : R) (a : tensor) :
  0 < m -> norm (tdiv (tscale c a) m) = Rabs c * (norm a / m).
Proof.
  intros Hm. pose proof (norm_nonneg a) as Hn.
  unfold norm at 1. fold (sumsq (tdiv (tscale c a) m)).
  rewrite sumsq_scaled, <- norm_sqr.
  replace (c / m * (c / m) * (norm a * norm a))
    with (Rsqr (c * (norm a / m))) by (unfold Rsqr; field; lra).
  rewrite sqrt_Rsqr_abs, Rabs_mult.
  rewrite (Rabs_right (norm a / m)); [ reflexivity | ].
  apply Rle_ge. apply Rmult_le_pos; [ assumption | ].
  apply Rlt_le, Rinv_0_lt_compat. assumption.
Qed.

Lemma clip_by_norm_divisor_pos (a : tensor) (c : R) :
  clip_by_norm_divisor a c <> 0 -> 0 < clip_by_norm_divisor a c.
Proof.
  intros H. unfold clip_by_norm_divisor in *.
  pose proof (norm_nonneg a) as Hn.
  pose proof (Rmax_l (norm a) c) as Hl. lra.
Qed.

Lemma clip_by_norm_divisor_nonzero (a : tensor) (c : R) :
  0 < c -> clip_by_norm_divisor a c <> 0.
Proof.
  intros H. unfold clip_by_norm_divisor.
  pose proof (Rmax_r (norm a) c) as Hr. lra.
Qed.

Lemma clip_by_norm_bound (a : tensor) (c : R) :
  0 <= c -> clip_by_norm_divisor a c <> 0 -> norm (clip_by_norm a c) <= c.
Proof.
  intros Hc Hd. apply clip_by_norm_divisor_pos in Hd.
  unfold clip_by_norm. rewrite norm_tdiv_tscale by assumption.
  rewrite (Rabs_right c) by lra.
  pose proof (norm_nonneg a) as Hn.
  assert (Hle : norm a <= clip_by_norm_divisor a c)
    by (unfold clip_by_norm_divisor; apply Rmax_l).
  set (D := clip_by_norm_divisor a c) in *.
  assert (Ht : norm a / D <= 1).
  { apply Rmult_le_reg_r with D; [ assumption | ].
    unfold Rdiv. rewrite Rmult_assoc, Rinv_l by lra. lra. }
  assert (Ht0 : 0 <= norm a / D).
  { apply Rmult_le_pos; [ assumption | ].
    apply Rlt_le, Rinv_0_lt_compat. assumption. }
  nra.
Qed.

(** Inside the ball [tf.clip_by_norm] is the identity, its divisor being
    [c]. *)
Lemma clip_by_norm_inside (a : tensor) (c : R) :
  norm a <= c -> clip_by_norm_divisor a c <> 0 -> clip_by_norm a c = a.
Proof.
  intros Hn Hd. unfold clip_by_norm.
  unfold clip_by_norm_divisor in *. rewrite Rmax_right in * by assumption.
  unfold tdiv, tscale. rewrite map_map.
  rewrite <- (map_id a) at 2. apply map_ext. intros u. field. assumption.
Qed.

Lemma tsub_self (a : tensor) : tsub a a = zeros (length a).
Proof.
  unfold tsub, zeros. induction a as [ | u a IH ]; simpl; [ reflexivity | ].
  rewrite IH. f_equal. lra.
Qed.

Lemma max_abs_zeros (n : nat) : max_abs (zeros n) = 0.
Proof.
  unfold max_abs, zeros. induction n as [ | n IH ]; simpl; [ reflexivity | ].
  rewrite IH, Rabs_R0. apply Rmax_left. lra.
Qed.

Lemma in_ball_origin (r : update_rule) (x : tensor) (eps : R) :
  0 <= eps -> in_ball r x eps x.
Proof.
  intros H. unfold in_ball. rewrite tsub_self.
  destruct r; [ rewrite norm_zeros | rewrite max_abs_zeros ]; assumption.
Qed.

Lemma in_range_bounds (lo hi : R) (x d : tensor) :
  Forall (fun u => lo <= u <= hi) x ->
  Forall (fun u => lo <= u <= hi) (clip_by_value (tadd x d) lo hi).
Proof.
  intros Hx. destruct Hx as [ | u x Hu Hx ].
  - constructor.
  - apply clip_by_value_range. lra.
Qed.

Lemma clip_by_value_id (eps : R) (a : tensor) :
  Forall (fun e => Rabs e <= eps) a -> clip_by_value a (- eps) eps = a.
Proof.
  unfold clip_by_value.
  induction 1 as [ | e a He Ha IH ]; simpl; [ reflexivity | ].
  rewrite IH. f_equal.
  pose proof (Rle_abs e) as H1. pose proof (Rle_abs (- e)) as H2.
  rewrite Rabs_Ropp in H2.
  rewrite Rmin_left by lra. apply Rmax_left. lra.
Qed.

Lemma grad_norm_pos (g : tensor) : 0 < grad_norm g.
Proof.
  unfold grad_norm.
  apply Rlt_le_trans with (1 / 10 ^ 12); [ | apply Rmax_l ].
  apply Rdiv_lt_0_compat; [ lra | apply pow_lt; lra ].
Qed.

Lemma sign_0 : sign 0 = 0.
Proof.
  unfold sign. destruct (Rlt_dec 0 0); [ lra | reflexivity ].
Qed.

Lemma sign_pos (u : R) : 0 < u -> sign u = 1.
Proof. intros H. unfold sign. destruct (Rlt_dec 0 u); [ reflexivity | contradiction ]. Qed.

Lemma sign_neg (u : R) : u < 0 -> sign u = -1.
Proof.
  intros H. unfold sign. destruct (Rlt_dec 0 u); [ lra | ].
  destruct (Rlt_dec u 0); [ reflexivity | contradiction ].
Qed.

Lemma l_2_step_zeros (r c : R) (n : nat) :
  tdiv (tscale r (zeros n)) c = zeros n.
Proof.
  unfold tdiv, tscale, zeros.
  induction n as [ | n IH ]; simpl; [ reflexivity | ].
  rewrite IH. f_equal. unfold Rdiv. ring.
Qed.

Lemma l_inf_step_zeros (r : R) (n : nat) :
  tscale r (tsign (zeros n)) = zeros n.
Proof.
  unfold tscale, tsign, zeros.
  induction n as [ | n IH ]; simpl; [ reflexivity | ].
  rewrite IH, sign_0. f_equal. ring.
Qed.

(** ** The margin loss *)

Lemma reduce_max_cons (u : R) (a : list R) :
  a <> [] -> reduce_max (u :: a) = Rmax u (reduce_max a).
Proof. destruct a; [ congruence | reflexivity ]. Qed.

Lemma reduce_max_In (a : list R) : a <> [] -> In (reduce_max a) a.
Proof.
  induction a as [ | u a IH ]; [ congruence | intros _ ].
  destruct a as [ | w a ]; [ left; reflexivity | ].
  rewrite reduce_max_cons by discriminate.
  unfold Rmax. destruct (Rle_dec u (reduce_max (w :: a))).
  - right. apply IH. discriminate.
  - left. reflexivity.
Qed.

Lemma reduce_max_ge (a : list R) (u : R) : In u a -> u <= reduce_max a.
Proof.
  induction a as [ | w a IH ]; [ intros [] | intros H ].
  destruct a as [ | z a ].
  - destruct H as [H | []]. subst. apply Rle_refl.
  - rewrite reduce_max_cons by discriminate.
    destruct H as [H | H].
    + subst. apply Rmax_l.
    + apply Rle_trans with (reduce_max (z :: a)); [ apply IH, H | apply Rmax_r ].
Qed.

Lemma masked_off (s : list R) (d : nat) :
  (length s <= d)%nat ->
  map2 (fun l m => l - 99999 * m) s (repeat 0 d) = s.
Proof.
  revert d. induction s as [ | u s IH ]; intros d H; [ destruct d; reflexivity | ].
  destruct d; simpl in *; [ lia | ].
  rewrite IH by lia. f_equal. lra.
Qed.

Lemma logit_this_off (s : list R) (d : nat) :
  reduce_sum (map2 Rmult (repeat 0 d) s) = 0.
Proof.
  revert s. induction d as [ | d IH ]; intros s; [ reflexivity | ].
  destruct s as [ | u s ]; simpl; [ reflexivity | ].
  rewrite IH. lra.
Qed.

Lemma logit_this_nth (y : nat) :
  forall (d : nat) (s : list R),
    reduce_sum (map2 Rmult (one_hot y d) s) = if (y <? d)%nat then nth y s 0 else 0.
Proof.
  induction y as [ | y IH ]; intros d s.
  - destruct d; simpl; [ reflexivity | ].
    destruct s as [ | u s ]; simpl; [ reflexivity | ].
    rewrite logit_this_off. lra.
  - destruct d; simpl; [ reflexivity | ].
    destruct s as [ | u s ]; simpl.
    + change (S y <? S d)%nat with (y <? d)%nat.
      destruct (y <? d)%nat; reflexivity.
    + rewrite IH. change (S y <? S d)%nat with (y <? d)%nat.
      destruct (y <? d)%nat; lra.
Qed.

(** The entries of the masked logits: the other classes' scores, and the
    label's score lowered by 99999. *)
Lemma masked_In (y : nat) :
  forall (d : nat) (s : list R) (u : R),
    length s = d -> (y < d)%nat ->
    (In u (map2 (fun l m => l - 99999 * m) s (one_hot y d)) <->
     In u (remove_nth y s) \/ u = nth y s 0 - 99999).
Proof.
  induction y as [ | y IH ]; intros d s u Hs Hy.
  - destruct d; [ lia | ]. destruct s as [ | w s ]; [ discriminate | ].
    simpl in *. rewrite masked_off by lia.
    split.
    + intros [H | H]; [ right; lra | left; assumption ].
    + intros [H | H]; [ right; assumption | left; lra ].
  - destruct d; [ lia | ]. destruct s as [ | w s ]; [ discriminate | ].
    simpl in *. rewrite (IH d s u) by lia.
    split.
    + intros [H | [H | H]].
      * left. left. lra.
      * left. right. assumption.
      * right. assumption.
    + intros [[H | H] | H].
      * left. lra.
      * right. left. assumption.
      * right. right. assumption.
Qed.

Lemma remove_nth_In (y j : nat) :
  forall s : list R,
    j <> y -> (j < length s)%nat -> In (nth j s 0) (remove_nth y s).
Proof.
  revert j. induction y as [ | y IH ]; intros j s Hj Hlen.
  - destruct s as [ | w s ]; [ simpl in Hlen; lia | ].
    destruct j; [ congruence | ]. simpl. apply nth_In. simpl in Hlen. lia.
  - destruct s as [ | w s ]; [ simpl in Hlen; lia | ].
    destruct j; simpl.
    + left. reflexivity.
    + right. apply IH; [ congruence | simpl in Hlen; lia ].
Qed.

Lemma margin_loss_spec (self : NES) (label : nat) (s : list R) :
  length s = n_class (model self) ->
  (label < n_class (model self))%nat ->
  (exists j : nat, j <> label /\ (j < n_class (model self))%nat /\
                   nth label s 0 - 99999 <= nth j s 0) ->
  margin_loss self label s = margin_spec label s.
Proof.
  intros Hlen Hlab [j [Hj [Hjn Hgap]]].
  unfold margin_loss, margin_spec.
  rewrite logit_this_nth.
  apply Nat.ltb_lt in Hlab as Hb. rewrite Hb. f_equal.
  assert (Hin : In (nth j s 0) (remove_nth label s))
    by (apply remove_nth_In; [ assumption | lia ]).
  assert (Hne : remove_nth label s <> []) by (intros E; rewrite E in Hin; destruct Hin).
  apply Rle_antisym.
  - assert (Hm : map2 (fun l m => l - 99999 * m) s
                      (one_hot label (n_class (model self))) <> []).
    { intros E.
      assert (Hin' : In (nth j s 0)
                        (map2 (fun l m => l - 99999 * m) s
                              (one_hot label (n_class (model self)))))
        by (apply masked_In; [ assumption | assumption | left; assumption ]).
      rewrite E in Hin'. destruct Hin'. }
    apply reduce_max_In in Hm.
    apply masked_In in Hm; [ | assumption | assumption ].
    destruct Hm as [Hm | Hm].
    + apply reduce_max_ge. assumption.
    + rewrite Hm. apply Rle_trans with (nth j s 0); [ assumption | ].
      apply reduce_max_ge. assumption.
  - apply reduce_max_ge. apply masked_In; [ assumption | assumption | ].
    left. apply reduce_max_In. assumption.
Qed.

(** ** Bookkeeping of the loop *)

Section LoopFacts.
Variable self : NES.
Variable cfg : Config.
Variables y y_target : nat.

Lemma tune_lr_queries (loss_now : list R) (l : Locals) (v : Vars) :
  queries (fst (tune_lr self cfg loss_now l v)) = queries l.
Proof.
  unfold tune_lr, halve_lr.
  destruct (lr_tuning cfg); [ | reflexivity ].
  destruct (plateau self cfg (window cfg l loss_now)); reflexivity.
Qed.

Lemma loop_body_queries (half : list tensor) (l : Locals) (v : Vars) :
  queries (fst (loop_body self cfg half l v))
  = (queries l + Z.of_nat (samples_per_draw self))%Z.
Proof.
  unfold loop_body, run_loss_and_update.
  rewrite tune_lr_queries. reflexivity.
Qed.

(** The counter at return is the counter at entry plus one
    [samples_per_draw] for each pass made. *)
Lemma attack_loop_queries (draws : list (list tensor)) :
  forall (l : Locals) (v : Vars) (r : tensor) (q : Z),
    attack_loop self cfg y y_target draws l v = Some (r, q) ->
    exists k : nat,
      (k <= length draws)%nat /\
      q = (queries l + Z.of_nat k * Z.of_nat (samples_per_draw self))%Z.
Proof.
  induction draws as [ | half draws IH ]; intros l v r q H; simpl in H.
  - destruct (queries l <? max_queries cfg)%Z; [ discriminate | ].
    injection H as _ Hq. exists O. split; [ apply Nat.le_refl | lia ].
  - destruct (queries l <? max_queries cfg)%Z.
    + pose proof (loop_body_queries half l v) as Hq.
      destruct (loop_body self cfg half l v) as [l' v'].
      simpl in Hq.
      destruct (is_adversarial self y y_target v').
      * injection H as _ Hr. exists 1%nat. split; [ simpl; lia | lia ].
      * apply IH in H. destruct H as [k [Hk Hr]].
        exists (S k). split; [ simpl; lia | lia ].
    + injection H as _ Hq. exists O. split; [ lia | lia ].
Qed.

(** With a positive [samples_per_draw] the loop ends: as many draws as
    queries are left in the budget are enough. *)
Lemma attack_loop_returns (draws : list (list tensor)) :
  forall (l : Locals) (v : Vars),
    (0 < samples_per_draw self)%nat ->
    (Z.to_nat (max_queries cfg - queries l) <= length draws)%nat ->
    attack_loop self cfg y y_target draws l v <> None.
Proof.
  induction draws as [ | half draws IH ]; intros l v Hspd Hlen; simpl.
  - destruct (Z.ltb_spec (queries l) (max_queries cfg)) as [Hlt | Hge].
    + simpl in Hlen. lia.
    + discriminate.
  - destruct (Z.ltb_spec (queries l) (max_queries cfg)) as [Hlt | Hge].
    + pose proof (loop_body_queries half l v) as Hq.
      destruct (loop_body self cfg half l v) as [l' v'].
      simpl in Hq.
      destruct (is_adversarial self y y_target v'); [ discriminate | ].
      apply IH; [ assumption | ].
      simpl in Hlen. rewrite Hq. lia.
    + discriminate.
Qed.

Lemma attack_setup_queries (v : Vars) (x : tensor) :
  queries (fst (attack_setup self cfg y y_target v x)) = 0%Z.
Proof. reflexivity. Qed.

Lemma attack_setup_x_adv (v : Vars) (x : tensor) :
  x_adv_var (snd (attack_setup self cfg y y_target v x)) = x.
Proof. reflexivity. Qed.
End LoopFacts.

Section LoopSteps.
Variable self : NES.
Variable cfg : Config.

Lemma loop_body_eq (half : list tensor) (l : Locals) (v : Vars) :
  loop_body self cfg half l v
  = tune_lr self cfg (loss self v half)
      (mkLocals (last_loss l)
                (queries l + Z.of_nat (samples_per_draw self)) (cur_lr l))
      (update_x_adv_step self v half).
Proof. reflexivity. Qed.

Lemma tune_lr_vars (loss_now : list R) (l : Locals) (v : Vars) :
  let v' := snd (tune_lr self cfg loss_now l v) in
  x_var v' = x_var v /\ x_adv_var v' = x_adv_var v /\ eps_var v' = eps_var v.
Proof.
  unfold tune_lr, halve_lr.
  destruct (lr_tuning cfg); [ | repeat split ].
  destruct (plateau self cfg (window cfg l loss_now)); repeat split.
Qed.

Lemma loop_body_x_adv (half : list tensor) (l : Locals) (v : Vars) :
  x_adv_var (snd (loop_body self cfg half l v))
  = x_adv_next self v (grad self v half).
Proof.
  rewrite loop_body_eq.
  destruct (tune_lr_vars (loss self v half)
              (mkLocals (last_loss l)
                 (queries l + Z.of_nat (samples_per_draw self)) (cur_lr l))
              (update_x_adv_step self v half)) as [_ [H _]].
  rewrite H. reflexivity.
Qed.

Lemma tune_lr_cases (loss_now : list R) (l : Locals) (v : Vars) :
  (lr_tuning cfg = true /\ plateau self cfg (window cfg l loss_now) = true /\
   tune_lr self cfg loss_now l v = halve_lr cfg l v)
  \/
  (cur_lr (fst (tune_lr self cfg loss_now l v)) = cur_lr l /\
   lr_var (snd (tune_lr self cfg loss_now l v)) = lr_var v).
Proof.
  unfold tune_lr.
  destruct (lr_tuning cfg); [ | right; split; reflexivity ].
  destruct (plateau self cfg (window cfg l loss_now)).
  - left. repeat split.
  - right. split; reflexivity.
Qed.
Variables y y_target : nat.

Lemma attack_loop_pass (half : list tensor) (draws : list (list tensor))
    (l l' : Locals) (v v' : Vars) :
  (queries l <? max_queries cfg)%Z = true ->
  loop_body self cfg half l v = (l', v') ->
  attack_loop self cfg y y_target (half :: draws) l v
  = if is_adversarial self y y_target v'
    then Some (x_adv_var v', queries l')
    else attack_loop self cfg y y_target draws l' v'.
Proof. intros Hq Hb. simpl. rewrite Hq, Hb. reflexivity. Qed.

Lemma attack_loop_stop (draws : list (list tensor)) (l : Locals) (v : Vars) :
  (queries l <? max_queries cfg)%Z = false ->
  attack_loop self cfg y y_target draws l v = Some (x_adv_var v, queries l).
Proof. intros Hq. destruct draws; simpl; rewrite Hq; reflexivity. Qed.
End LoopSteps.

(** ** One run of the small classifier *)

(** The small classifier's objects are what the constructor, [config] and
    the set-up of [attack] produce. *)
Lemma toy_nes_built :
  NES_init toy_model "ut" "l_inf" 3 = Ok (toy_nes, init_vars toy_model 2).
Proof. reflexivity. Qed.

Lemma toy_configured (mq : Z) (m : R) :
  config (mkConfig 0 0 0 false 0) (init_vars toy_model 2)
         (mkKwargs (Some 10) (Some mq) (Some 1) (Some 4) (Some m)
                   (Some true) (Some 2%Z))
  = (toy_cfg mq m, mkVars [0] [0] [O; O] 10 1 0).
Proof. reflexivity. Qed.

Lemma toy_loss (a r : R) :
  (a + 1) * (a + 1) <= 99999 -> (a - 1) * (a - 1) <= 99999 ->
  loss toy_nes (toy_vars a r) [[1]] = [- ((a + 1) * (a + 1)); - ((a - 1) * (a - 1))].
Proof.
  intros H1 H2.
  unfold loss, points, perts, margin_loss. simpl.
  as_value. f_equal; [ lra | f_equal; lra ].
Qed.

Lemma toy_grad (a r : R) :
  (a + 1) * (a + 1) <= 99999 -> (a - 1) * (a - 1) <= 99999 ->
  grad toy_nes (toy_vars a r) [[1]] = [- (2 * a)].
Proof.
  intros H1 H2. unfold grad. rewrite toy_loss by assumption.
  simpl. unfold tdiv, reduce_mean0, reduce_sum0. simpl. f_equal. lra.
Qed.

Lemma toy_update_1 :
  update_x_adv_step toy_nes (toy_vars 1 4) [[1]] = toy_vars (-3) 4.
Proof.
  unfold update_x_adv_step. rewrite toy_grad by lra.
  unfold x_adv_next, x_adv_projected, x_adv_delta, toy_vars, set_x_adv_var.
  simpl. rewrite sign_neg by lra. as_value. do 2 f_equal. lra.
Qed.

Lemma toy_update_2 :
  update_x_adv_step toy_nes (toy_vars (-3) 4) [[1]] = toy_vars 1 4.
Proof.
  unfold update_x_adv_step. rewrite toy_grad by lra.
  unfold x_adv_next, x_adv_projected, x_adv_delta, toy_vars, set_x_adv_var.
  simpl. rewrite sign_pos by lra. as_value. do 2 f_equal. lra.
Qed.

Lemma toy_update_2_halved :
  x_adv_next toy_nes (set_lr_var (toy_vars (-3) 4) 2)
             (grad toy_nes (toy_vars (-3) 4) [[1]]) = [-1].
Proof.
  rewrite toy_grad by lra.
  unfold x_adv_next, x_adv_projected, x_adv_delta, toy_vars, set_lr_var.
  simpl. rewrite sign_pos by lra. as_value. f_equal. lra.
Qed.

Lemma toy_not_adversarial (a r : R) :
  is_adversarial toy_nes 0 0 (toy_vars a r) = false.
Proof. reflexivity. Qed.

Lemma toy_setup (mq : Z) (m : R) :
  attack_setup toy_nes (toy_cfg mq m) 0 0 (toy_vars 0 0) [1]
  = (mkLocals [] 0%Z 4, toy_vars 1 4).
Proof. reflexivity. Qed.

Lemma toy_pass_1 (mq : Z) (m : R) :
  loop_body toy_nes (toy_cfg mq m) [[1]] (mkLocals [] 0%Z 4) (toy_vars 1 4)
  = (mkLocals [-2] 2%Z 4, toy_vars (-3) 4).
Proof.
  rewrite loop_body_eq, toy_update_1, toy_loss by lra.
  unfold tune_lr, window, plateau, py_slice_from. simpl.
  do 3 f_equal. unfold np_mean. simpl. lra.
Qed.

Lemma toy_window_2 (mq : Z) (m : R) :
  plateau toy_nes (toy_cfg mq m)
    (window (toy_cfg mq m) (mkLocals [-2] 2%Z 4)
            (loss toy_nes (toy_vars (-3) 4) [[1]])) = true.
Proof.
  rewrite toy_loss by lra.
  unfold window, plateau, py_slice_from, np_mean, Rltb. simpl.
  destruct (Rlt_dec _ _) as [ | N ]; [ reflexivity | exfalso; apply N; lra ].
Qed.

Lemma toy_pass_2 (mq : Z) (m : R) :
  loop_body toy_nes (toy_cfg mq m) [[1]] (mkLocals [-2] 2%Z 4) (toy_vars (-3) 4)
  = (mkLocals [] 4%Z (Rmax (4 / 2) m), toy_vars 1 (Rmax (4 / 2) m)).
Proof.
  rewrite loop_body_eq, toy_update_2.
  unfold tune_lr. simpl lr_tuning. cbv iota.
  change (window (toy_cfg mq m)
            (mkLocals (last_loss (mkLocals [-2] 2%Z 4))
               (queries (mkLocals [-2] 2%Z 4)
                + Z.of_nat (samples_per_draw toy_nes))
               (cur_lr (mkLocals [-2] 2%Z 4)))
            (loss toy_nes (toy_vars (-3) 4) [[1]]))
    with (window (toy_cfg mq m) (mkLocals [-2] 2%Z 4)
            (loss toy_nes (toy_vars (-3) 4) [[1]])).
  rewrite toy_window_2. reflexivity.
Qed.

(** A run with a budget of one query: one pass, then the guard stops. *)
Lemma toy_attack_budget_1 :
  attack toy_nes (toy_cfg 1 1) 0 0 [[[1]]] (toy_vars 0 0) [1]
  = Some ([-3], 2%Z).
Proof.
  unfold attack. rewrite toy_setup, toy_not_adversarial.
  rewrite (attack_loop_pass toy_nes (toy_cfg 1 1) 0 0 [[1]] []
             (mkLocals [] 0%Z 4) (mkLocals [-2] 2%Z 4)
             (toy_vars 1 4) (toy_vars (-3) 4) eq_refl (toy_pass_1 1 1)).
  rewrite toy_not_adversarial. apply attack_loop_stop. reflexivity.
Qed.

(** The run with a budget of four queries: two passes, the second one
    detecting the plateau. *)
Lemma toy_attack_budget_4 :
  attack toy_nes (toy_cfg 4 1) 0 0 [[[1]]; [[1]]] (toy_vars 0 0) [1]
  = Some ([1], 4%Z).
Proof.
  unfold attack. rewrite toy_setup, toy_not_adversarial.
  rewrite (attack_loop_pass toy_nes (toy_cfg 4 1) 0 0 [[1]] [[[1]]]
             (mkLocals [] 0%Z 4) (mkLocals [-2] 2%Z 4)
             (toy_vars 1 4) (toy_vars (-3) 4) eq_refl (toy_pass_1 4 1)).
  rewrite toy_not_adversarial.
  rewrite (attack_loop_pass toy_nes (toy_cfg 4 1) 0 0 [[1]] []
             (mkLocals [-2] 2%Z 4) (mkLocals [] 4%Z (Rmax (4 / 2) 1))
             (toy_vars (-3) 4) (toy_vars 1 (Rmax (4 / 2) 1))
             eq_refl (toy_pass_2 4 1)).
  rewrite toy_not_adversarial. apply attack_loop_stop. reflexivity.
Qed.

(** ** C1: feasibility of the candidate *)

(** C1, as the code has it: after a pass through the loop body in which no
    division is by zero, and for [0 <= eps], the candidate satisfies the
    distance constraint of the metric ([norm (x_adv - x) <= eps] for
    ['l_2'], [max (abs (x_adv - x)) <= eps] for ['l_inf']) and every entry
    of it lies in [[x_min, x_max]], whatever the candidate, the draw and
    the learning rate were before the pass; the original input lies in the
    valid range.  Over the reals the bound holds exactly, with no
    tolerance. *)
Theorem loop_body_feasible (self : NES) (cfg : Config) (half : list tensor)
    (l : Locals) (v : Vars) :
  no_zero_divisor self v half ->
  0 <= eps_var v ->
  in_range (model self) (x_var v) ->
  let v' := snd (loop_body self cfg half l v) in
  x_var v' = x_var v /\ eps_var v' = eps_var v /\
  in_ball (rule self) (x_var v') (eps_var v') (x_adv_var v') /\
  in_range (model self) (x_adv_var v').
Proof.
  intros [_ [_ Hdiv]] Heps Hx v'. subst v'. rewrite loop_body_eq.
  destruct (tune_lr_vars self cfg (loss self v half)
              (mkLocals (last_loss l)
                 (queries l + Z.of_nat (samples_per_draw self)) (cur_lr l))
              (update_x_adv_step self v half)) as [E1 [E2 E3]].
  rewrite E1, E2, E3.
  unfold update_x_adv_step. simpl.
  split; [ reflexivity | ]. split; [ reflexivity | ].
  unfold x_adv_next, x_adv_projected, in_ball.
  split.
  - destruct (rule self).
    + apply Rle_trans
        with (norm (clip_by_norm (x_adv_delta self v (grad self v half))
                                 (eps_var v))).
      * apply sqrt_le_1_alt. apply (clip_offset_sumsq _ _ _ Hx).
      * apply clip_by_norm_bound; [ assumption | ].
        apply Hdiv. reflexivity.
    + apply max_abs_le; [ assumption | ].
      apply clip_offset_abs; [ exact Hx | ].
      apply clip_sym_abs. assumption.
  - destruct (rule self); apply in_range_bounds; exact Hx.
Qed.

Lemma loop_body_feasible_witness :
  (let v' := snd (loop_body toy_nes (toy_cfg 4 1) [[1]]
                    (mkLocals [] 0%Z 4) (toy_vars 1 4)) in
   x_var v' = [1] /\ eps_var v' = 10 /\
   max_abs (tsub (x_adv_var v') (x_var v')) <= eps_var v' /\
   in_range toy_model (x_adv_var v'))
  /\
  (let v' := snd (loop_body toy_nes_l_2 (toy_cfg 4 1) [[1]]
                    (mkLocals [] 0%Z 4) (toy_vars 1 4)) in
   x_var v' = [1] /\ eps_var v' = 10 /\
   norm (tsub (x_adv_var v') (x_var v')) <= eps_var v' /\
   in_range toy_model (x_adv_var v')).
Proof.
  split.
  - apply (loop_body_feasible toy_nes (toy_cfg 4 1) [[1]]
             (mkLocals [] 0%Z 4) (toy_vars 1 4)).
    + split; [ simpl; discriminate | ].
      split; [ simpl; lra | intros H; discriminate H ].
    + simpl. lra.
    + constructor; [ simpl; lra | constructor ].
  - apply (loop_body_feasible toy_nes_l_2 (toy_cfg 4 1) [[1]]
             (mkLocals [] 0%Z 4) (toy_vars 1 4)).
    + split; [ simpl; discriminate | ].
      split; [ simpl; lra | intros _ ].
      apply clip_by_norm_divisor_nonzero. simpl. lra.
    + simpl. lra.
    + constructor; [ simpl; lra | constructor ].
Defined.

Lemma neg_eps_grad : grad toy_nes neg_eps_vars [[1]] = [- (2)].
Proof.
  unfold grad, loss, points, perts, margin_loss. simpl.
  as_value. unfold tdiv, reduce_mean0, reduce_sum0. simpl. f_equal. lra.
Qed.

(** A run from [[1]] with [magnitude=-1] in the ['l_inf'] metric: no
    division of the first pass is by zero, the candidate becomes [[2]], and
    its distance 1 from the input is not below [eps = -1]. *)
Lemma negative_eps_leaves_ball :
  attack_setup toy_nes (toy_cfg 4 1) 0 0 (mkVars [0] [0] [O; O] (-1) 1 0) [1]
  = (mkLocals [] 0%Z 4, neg_eps_vars) /\
  in_range toy_model (x_var neg_eps_vars) /\
  no_zero_divisor toy_nes neg_eps_vars [[1]] /\
  x_adv_var (snd (loop_body toy_nes (toy_cfg 4 1) [[1]]
                    (mkLocals [] 0%Z 4) neg_eps_vars)) = [2] /\
  ~ max_abs (tsub [2] (x_var neg_eps_vars)) <= eps_var neg_eps_vars.
Proof.
  split; [ reflexivity | ].
  split; [ constructor; [ simpl; lra | constructor ] | ].
  split.
  { split; [ simpl; discriminate | ].
    split; [ simpl; lra | intros H; discriminate H ]. }
  split.
  - rewrite loop_body_x_adv, neg_eps_grad.
    unfold x_adv_next, x_adv_projected, x_adv_delta, neg_eps_vars.
    simpl. rewrite sign_neg by lra. as_value. f_equal. lra.
  - simpl. unfold max_abs. simpl. intros H.
    pose proof (Rmax_r (Rabs (2 - 1)) 0) as Hr. lra.
Qed.

(** ** C2: the margin loss *)

(** C2, as the code has it: the label of the margin is [y] for the goal
    ['ut'] and [y_target] for every other goal, ['tm'] included.  For that
    label the loss of each sample is the largest score of another class
    minus the score of the label, at [x_adv + sigma * perturbation],
    provided the label is a class, the classifier returns [n_class] scores
    and the label's score exceeds some other score by at most 99999 (the
    constant with which line 52 masks the label). *)
Theorem loss_is_margin (self : NES) (y y_target : nat) (v : Vars)
    (half : list tensor) :
  let label := if String.eqb (goal self) "ut" then y else y_target in
  let v' := setup_ys_step self y y_target v in
  let scores := fun p : tensor =>
    fst (logits_and_labels (model self)
           (tadd (x_adv_var v) (tscale (sigma_var v) p))) in
  (2 * length half <= samples_per_draw self)%nat ->
  (label < n_class (model self))%nat ->
  (forall p : tensor, In p (perts half) ->
     length (scores p) = n_class (model self) /\
     exists j : nat, j <> label /\ (j < n_class (model self))%nat /\
                     nth label (scores p) 0 - 99999 <= nth j (scores p) 0) ->
  loss self v' half = map (fun p => margin_spec label (scores p)) (perts half).
Proof.
  intros label v' scores Hlen Hlab Hsc.
  unfold loss, points, v', setup_ys_step. simpl.
  fold label. rewrite map_map.
  rewrite map2_repeat.
  - rewrite map_map. apply map_ext_in. intros p Hp.
    destruct (Hsc p Hp) as [Hl Hj].
    apply margin_loss_spec; assumption.
  - rewrite length_map. unfold perts. rewrite length_app, length_map. lia.
Qed.

Lemma loss_is_margin_witness :
  loss tm_nes (setup_ys_step tm_nes 0 1 tm_vars) [[1]]
  = [margin_spec 1 [3; 1]; margin_spec 1 [3; 1]].
Proof.
  apply (loss_is_margin tm_nes 0 1 tm_vars [[1]]).
  - simpl. lia.
  - simpl. lia.
  - intros p _. simpl. split; [ reflexivity | ].
    exists O. repeat split; [ discriminate | lia | lra ].
Defined.

(** Goal ['tm'], true label 0, target label 1, scores [3] and [1]: the code
    computes the margin of the target label, [3 - 1 = 2]; the margin of the
    true label is [1 - 3 = -2]. *)
Lemma tm_loss_uses_target :
  goal tm_nes = "tm"%string /\
  loss tm_nes (setup_ys_step tm_nes 0 1 tm_vars) [[1]] = [2; 2] /\
  map (fun p => margin_spec 0 (fst (logits_and_labels (model tm_nes)
                 (tadd (x_adv_var tm_vars) (tscale (sigma_var tm_vars) p)))))
      (perts [[1]]) = [-2; -2] /\
  loss tm_nes (setup_ys_step tm_nes 0 1 tm_vars) [[1]]
  <> map (fun p => margin_spec 0 (fst (logits_and_labels (model tm_nes)
                 (tadd (x_adv_var tm_vars) (tscale (sigma_var tm_vars) p)))))
         (perts [[1]]).
Proof.
  assert (H1 : loss tm_nes (setup_ys_step tm_nes 0 1 tm_vars) [[1]] = [2; 2]).
  { unfold loss, margin_loss. simpl. as_value.
    f_equal; [ lra | f_equal; lra ]. }
  assert (H2 : map (fun p => margin_spec 0
                      (fst (logits_and_labels (model tm_nes)
                         (tadd (x_adv_var tm_vars)
                               (tscale (sigma_var tm_vars) p)))))
                   (perts [[1]]) = [-2; -2]).
  { unfold margin_spec. simpl. f_equal; [ lra | f_equal; lra ]. }
  repeat split; [ exact H1 | exact H2 | ].
  rewrite H1, H2. intros E. injection E as E _. lra.
Qed.

(** ** C3: a budget below one draw *)

(** C3, as the code has it: on an input that is not adversarial, a budget
    [max_queries <= 0] makes [attack] return the input with 0 queries
    without any pass through the loop body (no draw is needed); a budget
    [0 < max_queries <= samples_per_draw] makes it pass through the body
    exactly once: it returns the candidate of that one update and records
    [samples_per_draw] queries. *)
Theorem attack_small_budget (self : NES) (cfg : Config) (y y_target : nat)
    (v : Vars) (x : tensor) :
  let v1 := snd (attack_setup self cfg y y_target v x) in
  is_adversarial self y y_target v1 = false ->
  ((max_queries cfg <= 0)%Z ->
   forall draws : list (list tensor),
     attack self cfg y y_target draws v x = Some (x, 0%Z))
  /\
  ((0 < max_queries cfg <= Z.of_nat (samples_per_draw self))%Z ->
   forall (half : list tensor) (draws : list (list tensor)),
     attack self cfg y y_target (half :: draws) v x
     = Some (x_adv_next self v1 (grad self v1 half),
             Z.of_nat (samples_per_draw self))).
Proof.
  intros v1 Hadv. unfold attack.
  pose proof (attack_setup_queries self cfg y y_target v x) as Hq0.
  pose proof (attack_setup_x_adv self cfg y y_target v x) as Hx0.
  subst v1.
  destruct (attack_setup self cfg y y_target v x) as [l v1].
  simpl in Hq0, Hx0, Hadv. simpl snd. rewrite Hadv.
  split.
  - intros Hmq draws. rewrite attack_loop_stop.
    + rewrite Hq0, Hx0. reflexivity.
    + apply Z.ltb_ge. lia.
  - intros Hmq half draws.
    pose proof (loop_body_queries self cfg half l v1) as Hq1.
    pose proof (loop_body_x_adv self cfg half l v1) as Hx1.
    destruct (loop_body self cfg half l v1) as [l' v'] eqn:Hb.
    simpl in Hq1, Hx1.
    rewrite (attack_loop_pass self cfg y y_target half draws l l' v1 v')
      by (try apply Z.ltb_lt; try lia; assumption).
    destruct (is_adversarial self y y_target v').
    + rewrite Hx1, Hq1, Hq0. reflexivity.
    + rewrite attack_loop_stop by (apply Z.ltb_ge; lia).
      rewrite Hx1, Hq1, Hq0. reflexivity.
Qed.

Lemma attack_small_budget_witness :
  attack toy_nes (toy_cfg 0 1) 0 0 [] (toy_vars 0 0) [1] = Some ([1], 0%Z) /\
  attack toy_nes (toy_cfg 1 1) 0 0 [[[1]]] (toy_vars 0 0) [1]
  = Some (x_adv_next toy_nes (toy_vars 1 4)
            (grad toy_nes (toy_vars 1 4) [[1]]), 2%Z).
Proof.
  split.
  - apply (proj1 (attack_small_budget toy_nes (toy_cfg 0 1) 0 0
                    (toy_vars 0 0) [1] eq_refl)).
    simpl. lia.
  - apply (proj2 (attack_small_budget toy_nes (toy_cfg 1 1) 0 0
                    (toy_vars 0 0) [1] eq_refl)).
    simpl. lia.
Defined.

(** [max_queries = 1] is smaller than [samples_per_draw = 2] and the input
    [[1]] is not adversarial, yet the loop body runs once: the returned
    candidate is [[-3]] and 2 queries are recorded. *)
Lemma small_budget_runs_once :
  (max_queries (toy_cfg 1 1) < Z.of_nat (samples_per_draw toy_nes))%Z /\
  is_adversarial toy_nes 0 0
    (snd (attack_setup toy_nes (toy_cfg 1 1) 0 0 (toy_vars 0 0) [1])) = false /\
  attack toy_nes (toy_cfg 1 1) 0 0 [[[1]]] (toy_vars 0 0) [1]
  = Some ([-3], 2%Z) /\
  attack toy_nes (toy_cfg 1 1) 0 0 [[[1]]] (toy_vars 0 0) [1]
  <> Some ([1], 0%Z).
Proof.
  pose proof toy_attack_budget_1 as H.
  split; [ simpl; lia | ].
  split; [ reflexivity | ].
  split; [ exact H | ].
  rewrite H. intros E. injection E as _ E. discriminate.
Qed.

(** ** C4: where the learning rate is halved *)

(** C4, as the code has it: in a pass that detects a plateau the candidate
    is updated first, from the variables as they are at the start of the
    pass, so with the learning rate from before the halving; the halving
    comes after the update, empties the window, and its rate is the one
    the update of the next pass uses. *)
Theorem lr_halved_after_update (self : NES) (cfg : Config)
    (half : list tensor) (l : Locals) (v : Vars) :
  lr_tuning cfg = true ->
  plateau self cfg (window cfg l (loss self v half)) = true ->
  let l' := fst (loop_body self cfg half l v) in
  let v' := snd (loop_body self cfg half l v) in
  x_adv_var v' = x_adv_next self v (grad self v half) /\
  cur_lr l' = Rmax (cur_lr l / 2) (min_lr cfg) /\
  lr_var v' = Rmax (cur_lr l / 2) (min_lr cfg) /\
  last_loss l' = [].
Proof.
  intros Ht Hp l' v'.
  split; [ apply loop_body_x_adv | ].
  subst l' v'. rewrite loop_body_eq. unfold tune_lr.
  rewrite Ht. unfold window in *. simpl last_loss. rewrite Hp.
  repeat split.
Qed.

Lemma lr_halved_after_update_witness :
  let l1 := mkLocals [-2] 2%Z 4 in
  let v1 := toy_vars (-3) 4 in
  let l' := fst (loop_body toy_nes (toy_cfg 4 1) [[1]] l1 v1) in
  let v' := snd (loop_body toy_nes (toy_cfg 4 1) [[1]] l1 v1) in
  x_adv_var v' = x_adv_next toy_nes v1 (grad toy_nes v1 [[1]]) /\
  cur_lr l' = Rmax (4 / 2) 1 /\
  lr_var v' = Rmax (4 / 2) 1 /\
  last_loss l' = [].
Proof.
  exact (lr_halved_after_update toy_nes (toy_cfg 4 1) [[1]]
           (mkLocals [-2] 2%Z 4) (toy_vars (-3) 4)
           eq_refl (toy_window_2 4 1)).
Defined.

(** The second pass of a run from [[1]] with learning rate 4 detects a
    plateau and halves the rate to 2.  Its update moved the candidate from
    [[-3]] to [[1]], a step of 4; with the halved rate it would be
    [[-1]]. *)
Lemma plateau_update_uses_old_lr :
  let cfg := toy_cfg 4 1 in
  let l1 := mkLocals [-2] 2%Z 4 in
  let v1 := toy_vars (-3) 4 in
  loop_body toy_nes cfg [[1]]
    (fst (attack_setup toy_nes cfg 0 0 (toy_vars 0 0) [1]))
    (snd (attack_setup toy_nes cfg 0 0 (toy_vars 0 0) [1])) = (l1, v1) /\
  lr_tuning cfg = true /\
  plateau toy_nes cfg (window cfg l1 (loss toy_nes v1 [[1]])) = true /\
  lr_var (snd (loop_body toy_nes cfg [[1]] l1 v1)) = 2 /\
  x_adv_var (snd (loop_body toy_nes cfg [[1]] l1 v1)) = [1] /\
  x_adv_next toy_nes (set_lr_var v1 2) (grad toy_nes v1 [[1]]) = [-1] /\
  x_adv_var (snd (loop_body toy_nes cfg [[1]] l1 v1))
  <> x_adv_next toy_nes
       (set_lr_var v1 (lr_var (snd (loop_body toy_nes cfg [[1]] l1 v1))))
       (grad toy_nes v1 [[1]]).
Proof.
  intros cfg l1 v1. subst cfg l1 v1.
  assert (H2 : Rmax (4 / 2) 1 = 2) by (rewrite Rmax_left by lra; lra).
  pose proof (toy_pass_2 4 1) as P2. rewrite H2 in P2.
  split; [ rewrite toy_setup; apply toy_pass_1 | ].
  split; [ reflexivity | ].
  split; [ apply toy_window_2 | ].
  rewrite P2.
  split; [ reflexivity | ].
  split; [ reflexivity | ].
  split; [ apply toy_update_2_halved | ].
  change (lr_var (snd (mkLocals [] 4%Z 2, toy_vars 1 2))) with 2.
  rewrite toy_update_2_halved.
  intros E. injection E as E. lra.
Qed.

(** ** C5: query accounting *)

(** C5: whenever [attack] returns, the recorded count is a whole number of
    [samples_per_draw]: one for each pass through the loop body and nothing
    for the success checks.  And [attack] does return when
    [samples_per_draw] is positive and enough draws are supplied. *)
Theorem attack_queries_multiple (self : NES) (cfg : Config)
    (y y_target : nat) (v : Vars) (x : tensor) :
  (forall (draws : list (list tensor)) (r : tensor) (q : Z),
      attack self cfg y y_target draws v x = Some (r, q) ->
      exists k : nat,
        (k <= length draws)%nat /\
        q = (Z.of_nat k * Z.of_nat (samples_per_draw self))%Z)
  /\
  ((0 < samples_per_draw self)%nat ->
   forall draws : list (list tensor),
     (Z.to_nat (max_queries cfg) <= length draws)%nat ->
     attack self cfg y y_target draws v x <> None).
Proof.
  split.
  - intros draws r q H. unfold attack in H.
    pose proof (attack_setup_queries self cfg y y_target v x) as Hq0.
    destruct (attack_setup self cfg y y_target v x) as [l v1].
    simpl in Hq0.
    destruct (is_adversarial self y y_target v1).
    + injection H as _ Hq. exists O. split; [ lia | lia ].
    + apply attack_loop_queries in H. destruct H as [k [Hk Hq]].
      exists k. split; [ assumption | lia ].
  - intros Hspd draws Hlen. unfold attack.
    pose proof (attack_setup_queries self cfg y y_target v x) as Hq0.
    destruct (attack_setup self cfg y y_target v x) as [l v1].
    simpl in Hq0.
    destruct (is_adversarial self y y_target v1); [ discriminate | ].
    apply attack_loop_returns; [ assumption | ].
    rewrite Hq0, Z.sub_0_r. assumption.
Qed.

Lemma attack_queries_multiple_witness :
  (exists k : nat, (k <= 1)%nat /\ 2%Z = (Z.of_nat k * 2)%Z) /\
  attack toy_nes (toy_cfg 4 1) 0 0 [[[1]]; [[1]]; [[1]]; [[1]]]
         (toy_vars 0 0) [1] <> None.
Proof.
  split.
  - apply (proj1 (attack_queries_multiple toy_nes (toy_cfg 1 1) 0 0
                    (toy_vars 0 0) [1]) [[[1]]] [-3] 2%Z).
    apply toy_attack_budget_1.
  - apply (proj2 (attack_queries_multiple toy_nes (toy_cfg 4 1) 0 0
                    (toy_vars 0 0) [1])).
    + simpl. lia.
    + simpl. lia.
Defined.

(** ** C6: one step of the learning rate *)

(** C6, as the code has it: after a pass the learning rate is either what
    it was or exactly [max (lr / 2) min_lr]; when it changes it is at least
    [min_lr]; the TensorFlow variable follows the Python local.  It does
    not increase provided [0 <= lr] and [min_lr <= lr] hold before the
    pass, and then they hold after it as well.  Both provisos are needed:
    a pass that detects a plateau with [lr < min_lr] or with [lr < 0]
    increases the learning rate. *)
Theorem lr_step (self : NES) (cfg : Config) (half : list tensor)
    (l : Locals) (v : Vars) :
  let l' := fst (loop_body self cfg half l v) in
  let v' := snd (loop_body self cfg half l v) in
  (cur_lr l' = cur_lr l \/ cur_lr l' = Rmax (cur_lr l / 2) (min_lr cfg)) /\
  (cur_lr l' = cur_lr l \/ min_lr cfg <= cur_lr l') /\
  (lr_var v = cur_lr l -> lr_var v' = cur_lr l') /\
  (0 <= cur_lr l -> min_lr cfg <= cur_lr l ->
   cur_lr l' <= cur_lr l /\ 0 <= cur_lr l' /\ min_lr cfg <= cur_lr l') /\
  (lr_tuning cfg = true ->
   plateau self cfg (window cfg l (loss self v half)) = true ->
   cur_lr l < min_lr cfg \/ cur_lr l < 0 ->
   cur_lr l < cur_lr l').
Proof.
  intros l' v'. subst l' v'. rewrite loop_body_eq.
  pose proof (tune_lr_cases self cfg (loss self v half)
                (mkLocals (last_loss l)
                   (queries l + Z.of_nat (samples_per_draw self)) (cur_lr l))
                (update_x_adv_step self v half)) as Hcases.
  split; [ | split; [ | split; [ | split ] ] ].
  - destruct Hcases as [[_ [_ E]] | [E1 _]].
    + rewrite E. right. reflexivity.
    + rewrite E1. left. reflexivity.
  - destruct Hcases as [[_ [_ E]] | [E1 _]].
    + rewrite E. right. apply Rmax_r.
    + rewrite E1. left. reflexivity.
  - destruct Hcases as [[_ [_ E]] | [E1 E2]].
    + rewrite E. intros _. reflexivity.
    + rewrite E1, E2. intros H. exact H.
  - destruct Hcases as [[_ [_ E]] | [E1 _]].
    + rewrite E. unfold halve_lr. simpl. intros H0 Hm.
      split; [ apply Rmax_lub; lra | ].
      split; [ | apply Rmax_r ].
      apply Rle_trans with (cur_lr l / 2); [ lra | apply Rmax_l ].
    + rewrite E1. simpl. intros H0 Hm. lra.
  - intros Ht Hp Hlow. unfold tune_lr. rewrite Ht.
    unfold window in *. simpl last_loss. rewrite Hp.
    unfold halve_lr. simpl.
    pose proof (Rmax_l (cur_lr l / 2) (min_lr cfg)) as Hl.
    pose proof (Rmax_r (cur_lr l / 2) (min_lr cfg)) as Hr.
    destruct Hlow; lra.
Qed.

Lemma lr_step_witness :
  let l1 := mkLocals [-2] 2%Z 4 in
  let v1 := toy_vars (-3) 4 in
  let l' := fst (loop_body toy_nes (toy_cfg 4 1) [[1]] l1 v1) in
  let v' := snd (loop_body toy_nes (toy_cfg 4 1) [[1]] l1 v1) in
  (lr_var v' = cur_lr l' /\
   cur_lr l' <= 4 /\ 0 <= cur_lr l' /\ 1 <= cur_lr l') /\
  4 < cur_lr (fst (loop_body toy_nes (toy_cfg 4 5) [[1]] l1 v1)).
Proof.
  intros l1 v1 l' v'.
  split.
  - destruct (lr_step toy_nes (toy_cfg 4 1) [[1]] l1 v1)
      as [_ [_ [Hs [Hm _]]]].
    split.
    + apply Hs. reflexivity.
    + apply Hm; simpl; lra.
  - destruct (lr_step toy_nes (toy_cfg 4 5) [[1]] l1 v1)
      as [_ [_ [_ [_ Hup]]]].
    apply Hup.
    + reflexivity.
    + apply toy_window_2.
    + left. simpl. lra.
Defined.

Lemma neg_lr_update_1 :
  update_x_adv_step toy_nes (toy_vars 1 (-4)) [[1]] = toy_vars 5 (-4).
Proof.
  unfold update_x_adv_step. rewrite toy_grad by lra.
  unfold x_adv_next, x_adv_projected, x_adv_delta, toy_vars, set_x_adv_var.
  simpl. rewrite sign_neg by lra. as_value. do 2 f_equal. lra.
Qed.

Lemma neg_lr_pass_1 :
  loop_body toy_nes neg_lr_cfg [[1]] (mkLocals [] 0%Z (-4))
            (toy_vars 1 (-4))
  = (mkLocals [-2] 2%Z (-4), toy_vars 5 (-4)).
Proof.
  rewrite loop_body_eq, neg_lr_update_1, toy_loss by lra.
  unfold tune_lr, window, plateau, py_slice_from. simpl.
  do 3 f_equal. unfold np_mean. simpl. lra.
Qed.

Lemma neg_lr_window_2 :
  plateau toy_nes neg_lr_cfg
    (window neg_lr_cfg (mkLocals [-2] 2%Z (-4))
            (loss toy_nes (toy_vars 5 (-4)) [[1]])) = true.
Proof.
  rewrite toy_loss by lra.
  unfold window, plateau, py_slice_from, np_mean, Rltb. simpl.
  destruct (Rlt_dec _ _) as [ | N ]; [ reflexivity | exfalso; apply N; lra ].
Qed.

Lemma neg_lr_pass_2_lr :
  cur_lr (fst (loop_body toy_nes neg_lr_cfg [[1]]
                 (mkLocals [-2] 2%Z (-4)) (toy_vars 5 (-4))))
  = Rmax (-4 / 2) (-5).
Proof.
  rewrite loop_body_eq. unfold tune_lr. simpl lr_tuning. cbv iota.
  change (window neg_lr_cfg
            (mkLocals (last_loss (mkLocals [-2] 2%Z (-4)))
               (queries (mkLocals [-2] 2%Z (-4))
                + Z.of_nat (samples_per_draw toy_nes))
               (cur_lr (mkLocals [-2] 2%Z (-4))))
            (loss toy_nes (toy_vars 5 (-4)) [[1]]))
    with (window neg_lr_cfg (mkLocals [-2] 2%Z (-4))
            (loss toy_nes (toy_vars 5 (-4)) [[1]])).
  rewrite neg_lr_window_2. reflexivity.
Qed.

(** Two runs from [[1]] whose second pass detects a plateau.  With
    [lr = 4] and [min_lr = 5] the learning rate becomes
    [max (4 / 2) 5 = 5]; with [lr = -4] and [min_lr = -5] (so that
    [min_lr <= lr]) it becomes [max (-4 / 2) (-5) = -2].  In both it
    increases. *)
Lemma lr_step_increases :
  (let cfg := toy_cfg 4 5 in
   let l1 := mkLocals [-2] 2%Z 4 in
   let v1 := toy_vars (-3) 4 in
   loop_body toy_nes cfg [[1]]
     (fst (attack_setup toy_nes cfg 0 0 (toy_vars 0 0) [1]))
     (snd (attack_setup toy_nes cfg 0 0 (toy_vars 0 0) [1])) = (l1, v1) /\
   cur_lr l1 = 4 /\
   cur_lr (fst (loop_body toy_nes cfg [[1]] l1 v1)) = 5 /\
   cur_lr l1 < cur_lr (fst (loop_body toy_nes cfg [[1]] l1 v1)))
  /\
  (let cfg := neg_lr_cfg in
   let l1 := mkLocals [-2] 2%Z (-4) in
   let v1 := toy_vars 5 (-4) in
   min_lr cfg <= lr cfg /\
   loop_body toy_nes cfg [[1]]
     (fst (attack_setup toy_nes cfg 0 0 (toy_vars 0 0) [1]))
     (snd (attack_setup toy_nes cfg 0 0 (toy_vars 0 0) [1])) = (l1, v1) /\
   cur_lr l1 = -4 /\
   cur_lr (fst (loop_body toy_nes cfg [[1]] l1 v1)) = -2 /\
   cur_lr l1 < cur_lr (fst (loop_body toy_nes cfg [[1]] l1 v1))).
Proof.
  split.
  - intros cfg l1 v1. subst cfg l1 v1.
    assert (H2 : Rmax (4 / 2) 5 = 5) by (rewrite Rmax_right by lra; lra).
    rewrite toy_setup. simpl fst. simpl snd.
    rewrite toy_pass_1, toy_pass_2. simpl. rewrite H2.
    repeat split. lra.
  - intros cfg l1 v1. subst cfg l1 v1.
    assert (H2 : Rmax (-4 / 2) (-5) = -2)
      by (rewrite Rmax_left by lra; lra).
    split; [ simpl; lra | ].
    split; [ exact neg_lr_pass_1 | ].
    rewrite neg_lr_pass_2_lr, H2. simpl.
    repeat split. lra.
Qed.

(** ** C7: early exit *)

(** C7: when the success predicate holds on the input itself (the predicted
    label differs from [y] for the goals ['ut'] and ['tm'], or equals
    [y_target] for any other goal, such as ['t']), [attack] returns the
    input and records 0 queries, whatever draws are available, also none. *)
Theorem attack_early_exit (self : NES) (cfg : Config) (y y_target : nat)
    (draws : list (list tensor)) (v : Vars) (x : tensor) :
  let label := snd (logits_and_labels (model self) x) in
  ((goal self = "ut"%string \/ goal self = "tm"%string) /\ label <> y) \/
  (goal self <> "ut"%string /\ goal self <> "tm"%string /\ label = y_target) ->
  attack self cfg y y_target draws v x = Some (x, 0%Z).
Proof.
  intros label H. unfold attack.
  assert (Hadv : is_adversarial self y y_target
                   (snd (attack_setup self cfg y y_target v x)) = true).
  { unfold is_adversarial, label_pred. rewrite attack_setup_x_adv.
    fold label.
    destruct H as [[Hg Hl] | [Hut [Htm Hl]]].
    - assert (Hb : (String.eqb (goal self) "ut"
                    || String.eqb (goal self) "tm")%bool = true).
      { destruct Hg as [Hg | Hg]; rewrite Hg; reflexivity. }
      rewrite Hb. apply negb_true_iff. apply Nat.eqb_neq. assumption.
    - apply String.eqb_neq in Hut. apply String.eqb_neq in Htm.
      rewrite Hut, Htm. simpl. apply Nat.eqb_eq. assumption. }
  destruct (attack_setup self cfg y y_target v x) as [l v1] eqn:E.
  simpl in Hadv. rewrite Hadv.
  change l with (fst (l, v1)). rewrite <- E. reflexivity.
Qed.

Lemma attack_early_exit_witness :
  attack toy_nes (toy_cfg 4 1) 1 0 [] (toy_vars 0 0) [1] = Some ([1], 0%Z).
Proof.
  apply (attack_early_exit toy_nes (toy_cfg 4 1) 1 0 [] (toy_vars 0 0) [1]).
  left. split; [ left; reflexivity | simpl; discriminate ].
Defined.

(** ** C8: antithetic draws *)

(** C8: for a draw of [k] tensors of [n] entries each, the batch of
    perturbations has [2 * k] members, begins with the draw itself, has
    [perturbation[i + k] = - perturbation[i]] for every [i < k], and sums
    to the zero tensor. *)
Theorem perts_antithetic (half : list tensor) (k n : nat) :
  length half = k ->
  Forall (fun t => length t = n) half ->
  length (perts half) = (2 * k)%nat /\
  firstn k (perts half) = half /\
  (forall i : nat, (i < k)%nat ->
     nth (i + k) (perts half) [] = tneg (nth i (perts half) [])) /\
  reduce_sum0 n (perts half) = zeros n.
Proof.
  intros Hk Hn. unfold perts. repeat split.
  - rewrite length_app, length_map. lia.
  - rewrite <- Hk, firstn_app, firstn_all, Nat.sub_diag. simpl.
    apply app_nil_r.
  - intros i Hi.
    rewrite (app_nth2 half) by lia.
    rewrite (app_nth1 half) by lia.
    replace (i + k - length half)%nat with i by lia.
    change (@nil R) with (tneg []) at 1. apply map_nth.
  - rewrite reduce_sum0_app by (try apply Forall_tneg_length; assumption).
    rewrite reduce_sum0_neg. apply tadd_tneg.
    apply reduce_sum0_length. assumption.
Qed.

Lemma perts_antithetic_witness :
  length (perts [[1; 2]; [3; 4]]) = 4%nat /\
  firstn 2 (perts [[1; 2]; [3; 4]]) = [[1; 2]; [3; 4]] /\
  (forall i : nat, (i < 2)%nat ->
     nth (i + 2) (perts [[1; 2]; [3; 4]]) []
     = tneg (nth i (perts [[1; 2]; [3; 4]]) [])) /\
  reduce_sum0 2 (perts [[1; 2]; [3; 4]]) = zeros 2.
Proof.
  apply (perts_antithetic [[1; 2]; [3; 4]] 2 2).
  - reflexivity.
  - repeat constructor.
Defined.

(** ** C9: the distance metric at construction *)

(** C9: a distance metric other than ['l_2'] and ['l_inf'] makes the
    constructor raise [NotImplementedError]; with ['l_2'] or ['l_inf'] the
    constructor returns the object, with [samples_per_draw] rounded down to
    an even number. *)
Theorem NES_init_distance_metric (m : Model) (g dm : string) (spd : nat) :
  ((dm = "l_2"%string \/ dm = "l_inf"%string) /\
   exists r : update_rule,
     NES_init m g dm spd
     = Ok (mkNES m g dm r (spd / 2 * 2), init_vars m (spd / 2 * 2)))
  \/
  (dm <> "l_2"%string /\ dm <> "l_inf"%string /\
   NES_init m g dm spd = Raise NotImplementedError).
Proof.
  unfold NES_init, select_update_rule.
  destruct (string_dec dm "l_2") as [E2 | N2].
  - left. split; [ left; assumption | exists rule_l_2; reflexivity ].
  - destruct (string_dec dm "l_inf") as [Ei | Ni].
    + left. split; [ right; assumption | exists rule_l_inf; reflexivity ].
    + right. repeat split; assumption.
Qed.

(** ** C10: an all-zero gradient *)

(** C10, as the code has it: for the all-zero gradient of the input's
    shape, the divisor of line 62 is positive (it is the floor [1e-12]),
    the normalised step of ['l_2'] and the sign step of ['l_inf'] are the
    zero tensor, and the new offset from the origin, before the projection,
    is the old one.  The projection then leaves it alone too, so that the
    candidate before the value-range clipping is the previous candidate,
    when the previous candidate is inside the ball and, for ['l_2'], the
    divisor inside [tf.clip_by_norm] (line 63) is not 0. *)
Theorem zero_gradient_step (self : NES) (v : Vars) (n : nat) :
  length (x_var v) = n ->
  length (x_adv_var v) = n ->
  let g := zeros n in
  0 < grad_norm g /\
  grad_norm g = 1 / 10 ^ 12 /\
  tdiv (tscale (lr_var v) g) (grad_norm g) = zeros n /\
  tscale (lr_var v) (tsign g) = zeros n /\
  x_adv_delta self v g = tsub (x_adv_var v) (x_var v) /\
  (in_ball (rule self) (x_var v) (eps_var v) (x_adv_var v) ->
   (rule self = rule_l_2 ->
    clip_by_norm_divisor (x_adv_delta self v g) (eps_var v) <> 0) ->
   x_adv_projected self v g = x_adv_var v).
Proof.
  intros Hx Ha g.
  assert (Hd : x_adv_delta self v g = tsub (x_adv_var v) (x_var v)).
  { unfold x_adv_delta, g. destruct (rule self).
    - rewrite l_2_step_zeros. apply tadd_zeros_r.
      apply tsub_length; assumption.
    - rewrite l_inf_step_zeros. apply tadd_zeros_r.
      apply tsub_length; assumption. }
  split; [ apply grad_norm_pos | ].
  split.
  { unfold grad_norm, g. rewrite norm_zeros. apply Rmax_left.
    apply Rlt_le. apply Rdiv_lt_0_compat; [ lra | apply pow_lt; lra ]. }
  split; [ apply l_2_step_zeros | ].
  split; [ apply l_inf_step_zeros | ].
  split; [ exact Hd | ].
  unfold in_ball, x_adv_projected. rewrite Hd.
  destruct (rule self); intros Hb Hdiv.
  - rewrite clip_by_norm_inside;
      [ | assumption | apply Hdiv; reflexivity ].
    apply tadd_tsub_cancel. congruence.
  - rewrite clip_by_value_id by (apply max_abs_ge; assumption).
    apply tadd_tsub_cancel. congruence.
Qed.

Lemma zero_gradient_step_witness :
  (0 < grad_norm (zeros 1) /\
   x_adv_delta toy_nes (toy_vars (-3) 4) (zeros 1) = tsub [-3] [1] /\
   x_adv_projected toy_nes (toy_vars (-3) 4) (zeros 1) = [-3])
  /\
  x_adv_projected toy_nes_l_2 (toy_vars (-3) 4) (zeros 1) = [-3].
Proof.
  split.
  - destruct (zero_gradient_step toy_nes (toy_vars (-3) 4) 1 eq_refl eq_refl)
      as [H1 [_ [_ [_ [H2 H3]]]]].
    split; [ exact H1 | ].
    split; [ exact H2 | ].
    apply H3.
    + simpl. unfold max_abs. simpl.
      apply Rmax_lub; [ | lra ].
      apply Rabs_le. lra.
    + intros H. discriminate H.
  - destruct (zero_gradient_step toy_nes_l_2 (toy_vars (-3) 4) 1
                eq_refl eq_refl) as [_ [_ [_ [_ [_ H3]]]]].
    apply H3.
    + simpl. unfold norm. simpl.
      replace ((-3 - 1) * (-3 - 1) + 0) with (4 * 4) by lra.
      rewrite sqrt_square by lra. lra.
    + intros _. apply clip_by_norm_divisor_nonzero. simpl. lra.
Defined.

(** With an all-zero gradient: in the ['l_2'] metric with [magnitude=0],
    at the start of a run (candidate = input, so inside the ball), the
    divisor inside [tf.clip_by_norm] is 0, so line 63 divides 0 by 0; and
    in the ['l_inf'] metric with [magnitude=-1] the candidate before the
    value-range clipping moves from [[1]] to [[2]]. *)
Lemma zero_gradient_zero_divisor :
  (in_ball rule_l_2 (x_var zero_eps_vars) (eps_var zero_eps_vars)
           (x_adv_var zero_eps_vars) /\
   clip_by_norm_divisor (x_adv_delta toy_nes_l_2 zero_eps_vars (zeros 1))
                        (eps_var zero_eps_vars) = 0)
  /\
  (x_adv_var neg_eps_vars = [1] /\
   x_adv_projected toy_nes neg_eps_vars (zeros 1) = [2]).
Proof.
  split; split.
  - apply in_ball_origin. simpl. lra.
  - unfold x_adv_delta. simpl rule. cbv iota.
    rewrite l_2_step_zeros.
    rewrite (tadd_zeros_r 1) by reflexivity.
    simpl x_adv_var. simpl x_var. simpl eps_var.
    rewrite tsub_self. simpl length.
    unfold clip_by_norm_divisor. rewrite norm_zeros.
    apply Rmax_left. lra.
  - reflexivity.
  - unfold x_adv_projected, x_adv_delta, neg_eps_vars. simpl.
    rewrite sign_0. as_value. unfold tadd. simpl. f_equal. lra.
Qed.

(** * Further properties of the code *)

(** ** Construction and configuration *)

(** X1: the constructor stores an even [samples_per_draw], the argument
    rounded down by at most one, and sizes [ys_var] with it; the candidate
    and the original start as zero tensors of the input's shape. *)
Theorem NES_init_samples_per_draw (m : Model) (g dm : string) (n : nat)
    (self : NES) (v : Vars) :
  NES_init m g dm n = Ok (self, v) ->
  Nat.even (samples_per_draw self) = true /\
  (samples_per_draw self <= n)%nat /\
  (n - samples_per_draw self <= 1)%nat /\
  length (ys_var v) = samples_per_draw self /\
  x_var v = zeros (x_shape m) /\ x_adv_var v = zeros (x_shape m) /\
  model self = m /\ goal self = g /\ distance_metric self = dm.
Proof.
  unfold NES_init. destruct (select_update_rule dm) as [r | e];
    [ | discriminate ].
  intros H. injection H as Hs Hv. subst self v. unfold init_vars.
  cbn [samples_per_draw ys_var x_var x_adv_var model goal distance_metric].
  change (fst (Nat.divmod n 1 0 1)) with (n / 2)%nat.
  pose proof (Nat.div_mod_eq n 2) as Hd.
  pose proof (Nat.mod_upper_bound n 2 ltac:(discriminate)) as Hm.
  split; [ rewrite Nat.even_mul; apply orb_true_r | ].
  split; [ lia | ].
  split; [ lia | ].
  split; [ apply repeat_length | ].
  repeat split.
Qed.

Lemma NES_init_samples_per_draw_witness :
  Nat.even (samples_per_draw toy_nes) = true /\
  (samples_per_draw toy_nes <= 3)%nat /\
  (3 - samples_per_draw toy_nes <= 1)%nat /\
  length (ys_var (init_vars toy_model 2)) = samples_per_draw toy_nes /\
  x_var (init_vars toy_model 2) = zeros (x_shape toy_model) /\
  x_adv_var (init_vars toy_model 2) = zeros (x_shape toy_model) /\
  model toy_nes = toy_model /\ goal toy_nes = "ut"%string /\
  distance_metric toy_nes = "l_inf"%string.
Proof.
  apply (NES_init_samples_per_draw toy_model "ut" "l_inf" 3 toy_nes
           (init_vars toy_model 2)).
  reflexivity.
Defined.

Lemma or_keep_or_else {A : Type} (later earlier : option A) (old : A) :
  or_keep later (or_keep earlier old) = or_keep (or_else later earlier) old.
Proof. destruct later, earlier; reflexivity. Qed.

(** X2: two calls of [config] are one call with the keywords merged, the
    later call winning key by key; a call without keywords changes
    nothing; and [config] never touches the original, the candidate, the
    labels or the learning-rate variable of the session (a new [lr] reaches
    the graph only when [attack] starts). *)
Theorem config_compose (c : Config) (v : Vars) (kw1 kw2 : Kwargs) :
  config (fst (config c v kw1)) (snd (config c v kw1)) kw2
  = config c v (kw_merge kw1 kw2) /\
  config c v kw_none = (c, v) /\
  x_var (snd (config c v kw1)) = x_var v /\
  x_adv_var (snd (config c v kw1)) = x_adv_var v /\
  ys_var (snd (config c v kw1)) = ys_var v /\
  lr_var (snd (config c v kw1)) = lr_var v.
Proof.
  split; [ | split ].
  - unfold config, kw_merge. simpl. f_equal.
    + rewrite !or_keep_or_else. reflexivity.
    + destruct (kw_magnitude kw1), (kw_magnitude kw2),
        (kw_sigma kw1), (kw_sigma kw2); reflexivity.
  - destruct c. reflexivity.
  - unfold config. simpl.
    destruct (kw_magnitude kw1), (kw_sigma kw1); repeat split.
Qed.

(** ** The loss window and the learning-rate schedule *)

Lemma py_slice_last_length {A : Type} (p : Z) (l : list A) :
  (0 < p)%Z ->
  length (py_slice_from (- p) l) = Nat.min (length l) (Z.to_nat p).
Proof.
  intros Hp. unfold py_slice_from.
  destruct (Z.ltb_spec (- p) 0) as [_ | H]; [ | lia ].
  rewrite length_skipn. lia.
Qed.

Lemma py_slice_whole {A : Type} (l : list A) : py_slice_from 0 l = l.
Proof.
  unfold py_slice_from. simpl.
  rewrite Z.min_l by lia. reflexivity.
Qed.

Lemma Rltb_irrefl (a : R) : Rltb a a = false.
Proof. unfold Rltb. destruct (Rlt_dec a a); [ lra | reflexivity ]. Qed.

(** With a window of at most one entry no plateau is ever found: for
    [plateau_length <= 0] the length test of line 124 cannot hold, and for
    [plateau_length = 1] the window's last entry is its first. *)
Lemma plateau_short_window (self : NES) (cfg : Config) (l : Locals)
    (loss_now : list R) :
  (plateau_length cfg <= 1)%Z ->
  plateau self cfg (window cfg l loss_now) = false.
Proof.
  intros Hp. unfold plateau.
  destruct (Z.eqb_spec
              (Z.of_nat (length (window cfg l loss_now))) (plateau_length cfg))
    as [E | N]; [ | reflexivity ].
  simpl.
  assert (Hone : plateau_length cfg = 1%Z).
  { destruct (Z.eq_dec (plateau_length cfg) 0) as [E0 | N0].
    - exfalso. unfold window in E. rewrite E0 in E. simpl in E.
      rewrite py_slice_whole, length_app in E. simpl in E. lia.
    - lia. }
  rewrite Hone in E.
  destruct (window cfg l loss_now) as [ | a [ | b w ] ];
    simpl in E; try lia.
  simpl. rewrite Rltb_irrefl, !andb_false_r. reflexivity.
Qed.

(** X3: with [lr_tuning] on and a positive [plateau_length], the history
    that a pass leaves in [last_loss] never has more than [plateau_length]
    entries, whatever it held before. *)
Theorem last_loss_bounded (self : NES) (cfg : Config) (half : list tensor)
    (l : Locals) (v : Vars) :
  lr_tuning cfg = true ->
  (0 < plateau_length cfg)%Z ->
  (Z.of_nat (length (last_loss (fst (loop_body self cfg half l v))))
   <= plateau_length cfg)%Z.
Proof.
  intros Ht Hp. rewrite loop_body_eq. unfold tune_lr. rewrite Ht.
  match goal with
  | |- context [plateau self cfg ?w] => destruct (plateau self cfg w)
  end.
  - simpl. lia.
  - simpl. unfold window. rewrite py_slice_last_length by assumption.
    lia.
Qed.

Lemma last_loss_bounded_witness :
  let l' := fst (loop_body toy_nes (toy_cfg 4 1) [[1]]
                   (mkLocals [5; 6; 7] 0%Z 4) (toy_vars 1 4)) in
  (Z.of_nat (length (last_loss l')) <= 2)%Z.
Proof.
  apply (last_loss_bounded toy_nes (toy_cfg 4 1) [[1]]
           (mkLocals [5; 6; 7] 0%Z 4) (toy_vars 1 4)).
  - reflexivity.
  - simpl. lia.
Defined.

(** X4: when [lr_tuning] is off, or [plateau_length] is at most 1, a pass
    never changes the learning rate, neither the Python local nor the
    session variable. *)
Theorem lr_never_tuned (self : NES) (cfg : Config) (half : list tensor)
    (l : Locals) (v : Vars) :
  lr_tuning cfg = false \/ (plateau_length cfg <= 1)%Z ->
  cur_lr (fst (loop_body self cfg half l v)) = cur_lr l /\
  lr_var (snd (loop_body self cfg half l v)) = lr_var v.
Proof.
  intros H. rewrite loop_body_eq. unfold tune_lr.
  destruct (lr_tuning cfg); [ | split; reflexivity ].
  destruct H as [H | H]; [ discriminate | ].
  rewrite plateau_short_window by assumption.
  split; reflexivity.
Qed.

Lemma lr_never_tuned_witness :
  cur_lr (fst (loop_body toy_nes (mkConfig 4 4 1 true 1) [[1]]
                 (mkLocals [-2] 2%Z 4) (toy_vars (-3) 4))) = 4 /\
  lr_var (snd (loop_body toy_nes (mkConfig 4 4 1 true 1) [[1]]
                 (mkLocals [-2] 2%Z 4) (toy_vars (-3) 4))) = 4.
Proof.
  apply (lr_never_tuned toy_nes (mkConfig 4 4 1 true 1) [[1]]
           (mkLocals [-2] 2%Z 4) (toy_vars (-3) 4)).
  right. simpl. lia.
Defined.

(** X5: a pass writes only the candidate and the learning rate: the
    original input, the labels, [eps] and [sigma] of the session are never
    modified. *)
Theorem loop_body_frame (self : NES) (cfg : Config) (half : list tensor)
    (l : Locals) (v : Vars) :
  let v' := snd (loop_body self cfg half l v) in
  x_var v' = x_var v /\ ys_var v' = ys_var v /\
  eps_var v' = eps_var v /\ sigma_var v' = sigma_var v.
Proof.
  rewrite loop_body_eq. unfold tune_lr, halve_lr.
  destruct (lr_tuning cfg); [ | repeat split ].
  match goal with
  | |- context [plateau self cfg ?w] => destruct (plateau self cfg w)
  end; repeat split.
Qed.

(** ** How [attack] ends *)

Lemma is_adversarial_x_adv (self : NES) (y y_target : nat) (v v' : Vars) :
  x_adv_var v = x_adv_var v' ->
  is_adversarial self y y_target v = is_adversarial self y y_target v'.
Proof.
  intros H. unfold is_adversarial, label_pred. rewrite H. reflexivity.
Qed.

Lemma attack_loop_outcome (self : NES) (cfg : Config) (y y_target : nat)
    (draws : list (list tensor)) :
  forall (l : Locals) (v : Vars) (r : tensor) (q : Z),
    attack_loop self cfg y y_target draws l v = Some (r, q) ->
    (q = queries l \/
     (q < max_queries cfg + Z.of_nat (samples_per_draw self))%Z) /\
    (is_adversarial self y y_target (set_x_adv_var v r) = true \/
     (max_queries cfg <= q)%Z).
Proof.
  induction draws as [ | half draws IH ]; intros l v r q H.
  - simpl in H.
    destruct (Z.ltb_spec (queries l) (max_queries cfg)) as [Hlt | Hge];
      [ discriminate | ].
    injection H as Hr Hq. subst. split; [ left; reflexivity | right; lia ].
  - simpl in H.
    destruct (Z.ltb_spec (queries l) (max_queries cfg)) as [Hlt | Hge].
    + pose proof (loop_body_queries self cfg half l v) as Hq1.
      destruct (loop_body self cfg half l v) as [l' v'].
      simpl in Hq1.
      destruct (is_adversarial self y y_target v') eqn:Hadv.
      * injection H as Hr Hq. subst r q.
        split; [ right; lia | left ].
        rewrite <- Hadv. apply is_adversarial_x_adv. reflexivity.
      * apply IH in H. destruct H as [Ha Hb].
        split; [ right; lia | ].
        destruct Hb as [Hb | Hb]; [ left | right; assumption ].
        rewrite <- Hb. apply is_adversarial_x_adv. reflexivity.
    + injection H as Hr Hq. subst. split; [ left; reflexivity | right; lia ].
Qed.

(** X6: whenever [attack] returns, the recorded count is 0 or overshoots
    the budget by less than one draw, and the returned tensor is
    adversarial unless the budget is spent ([max_queries <= queries]). *)
Theorem attack_outcome (self : NES) (cfg : Config) (y y_target : nat)
    (draws : list (list tensor)) (v : Vars) (x r : tensor) (q : Z) :
  attack self cfg y y_target draws v x = Some (r, q) ->
  (q = 0%Z \/ (q < max_queries cfg + Z.of_nat (samples_per_draw self))%Z) /\
  (is_adversarial self y y_target (set_x_adv_var v r) = true \/
   (max_queries cfg <= q)%Z).
Proof.
  intros H. unfold attack in H.
  pose proof (attack_setup_queries self cfg y y_target v x) as Hq0.
  pose proof (attack_setup_x_adv self cfg y y_target v x) as Hx0.
  destruct (attack_setup self cfg y y_target v x) as [l v1].
  simpl in Hq0, Hx0.
  destruct (is_adversarial self y y_target v1) eqn:Hadv.
  - injection H as Hr Hq. subst r q.
    split; [ left; assumption | left ].
    rewrite <- Hadv. apply is_adversarial_x_adv. simpl. symmetry. assumption.
  - apply attack_loop_outcome in H. rewrite Hq0 in H.
    destruct H as [Ha Hb]. split; [ exact Ha | ].
    destruct Hb as [Hb | Hb]; [ left | right; assumption ].
    rewrite <- Hb. apply is_adversarial_x_adv. reflexivity.
Qed.

Lemma attack_outcome_witness :
  (2%Z = 0%Z \/ (2 < 1 + Z.of_nat 2)%Z) /\
  (is_adversarial toy_nes 0 0 (set_x_adv_var (toy_vars 0 0) [-3]) = true \/
   (1 <= 2)%Z).
Proof.
  exact (attack_outcome toy_nes (toy_cfg 1 1) 0 0 [[[1]]] (toy_vars 0 0)
           [1] [-3] 2%Z toy_attack_budget_1).
Defined.

Lemma attack_loop_stuck (self : NES) (cfg : Config) (y y_target : nat)
    (draws : list (list tensor)) :
  samples_per_draw self = O ->
  (forall v' : Vars, is_adversarial self y y_target v' = false) ->
  forall (l : Locals) (v : Vars),
    (queries l < max_queries cfg)%Z ->
    attack_loop self cfg y y_target draws l v = None.
Proof.
  intros Hspd Hadv.
  induction draws as [ | half draws IH ]; intros l v Hq; simpl.
  - destruct (Z.ltb_spec (queries l) (max_queries cfg)); [ reflexivity | lia ].
  - destruct (Z.ltb_spec (queries l) (max_queries cfg)); [ | lia ].
    pose proof (loop_body_queries self cfg half l v) as Hq1.
    destruct (loop_body self cfg half l v) as [l' v'].
    simpl in Hq1. rewrite Hadv. apply IH. rewrite Hq1, Hspd. simpl. lia.
Qed.

(** X7: an object built with [samples_per_draw] 0 or 1 stores 0, and then
    the query counter never moves: with a positive budget the loop can end
    only by success, so on a classifier whose label never leaves [y] no
    number of draws makes [attack] return. *)
Theorem attack_never_returns (self : NES) (cfg : Config) (y y_target : nat)
    (v : Vars) (x : tensor) :
  samples_per_draw self = O ->
  (0 < max_queries cfg)%Z ->
  (forall v' : Vars, is_adversarial self y y_target v' = false) ->
  forall draws : list (list tensor),
    attack self cfg y y_target draws v x = None.
Proof.
  intros Hspd Hmq Hadv draws. unfold attack.
  pose proof (attack_setup_queries self cfg y y_target v x) as Hq0.
  destruct (attack_setup self cfg y y_target v x) as [l v1].
  simpl in Hq0. rewrite Hadv.
  apply attack_loop_stuck; [ assumption | assumption | lia ].
Qed.

Lemma attack_never_returns_witness :
  NES_init toy_model "ut" "l_inf" 1 = Ok (toy_nes_0, init_vars toy_model 0) /\
  attack toy_nes_0 (toy_cfg 4 1) 0 0 [[]; []; []] (toy_vars 0 0) [1] = None.
Proof.
  split; [ reflexivity | ].
  apply (attack_never_returns toy_nes_0 (toy_cfg 4 1) 0 0 (toy_vars 0 0) [1]).
  - reflexivity.
  - simpl. lia.
  - intros v'. reflexivity.
Defined.

(** X8: [attack] starts from its arguments alone: of the session it reads
    only [eps] and [sigma] (what [config] set), so the variables left
    behind by an earlier run do not influence the result. *)
Theorem attack_fresh_start (self : NES) (cfg : Config) (y y_target : nat)
    (draws : list (list tensor)) (v w : Vars) (x : tensor) :
  eps_var v = eps_var w ->
  sigma_var v = sigma_var w ->
  attack self cfg y y_target draws v x = attack self cfg y y_target draws w x.
Proof.
  intros He Hs. unfold attack, attack_setup, setup_ys_step, setup_x_step,
    set_ys_var, set_lr_var. simpl.
  rewrite He, Hs. reflexivity.
Qed.

Lemma attack_fresh_start_witness :
  attack toy_nes (toy_cfg 1 1) 0 0 [[[1]]] (toy_vars 0 0) [1]
  = attack toy_nes (toy_cfg 1 1) 0 0 [[[1]]] (mkVars [7; 7] [8] [] 10 1 9) [1].
Proof.
  apply (attack_fresh_start toy_nes (toy_cfg 1 1) 0 0 [[[1]]]
           (toy_vars 0 0) (mkVars [7; 7] [8] [] 10 1 9) [1]);
    reflexivity.
Defined.

(** ** The margin loss at its edges *)

Lemma one_hot_out_of_range (y : nat) :
  forall d : nat, (d <= y)%nat -> one_hot y d = repeat 0 d.
Proof.
  induction y as [ | y IH ]; intros d H.
  - assert (d = O) by lia. subst. reflexivity.
  - destruct d; [ reflexivity | ]. simpl. rewrite IH by lia. reflexivity.
Qed.

(** X9: for a label that is not a class ([n_class <= y], where
    [tf.one_hot] gives an all-zero mask) nothing is masked and nothing is
    subtracted: the loss is the largest score. *)
Theorem margin_loss_label_out_of_range (self : NES) (y : nat)
    (logits : list R) :
  (n_class (model self) <= y)%nat ->
  (length logits <= n_class (model self))%nat ->
  margin_loss self y logits = reduce_max logits.
Proof.
  intros Hy Hlen. unfold margin_loss.
  rewrite one_hot_out_of_range by assumption.
  rewrite logit_this_off, masked_off by assumption. lra.
Qed.

Lemma margin_loss_label_out_of_range_witness :
  margin_loss tm_nes 2 [3; 1] = reduce_max [3; 1].
Proof.
  apply (margin_loss_label_out_of_range tm_nes 2 [3; 1]); simpl; lia.
Defined.

Lemma remove_nth_In_inv (y : nat) :
  forall (s : list R) (u : R),
    In u (remove_nth y s) ->
    exists j : nat, j <> y /\ (j < length s)%nat /\ nth j s 0 = u.
Proof.
  induction y as [ | y IH ]; intros s u H.
  - destruct s as [ | w s ]; [ destruct H | ]. simpl in H.
    apply In_nth with (d := 0) in H. destruct H as [j [Hj E]].
    exists (S j). simpl. repeat split; [ discriminate | lia | exact E ].
  - destruct s as [ | w s ]; [ destruct H | ]. simpl in H.
    destruct H as [H | H].
    + exists O. simpl. repeat split; [ discriminate | lia | exact H ].
    + apply IH in H. destruct H as [j [Hj [Hl E]]].
      exists (S j). simpl. repeat split; [ congruence | lia | exact E ].
Qed.

(** X10: for a label that is a class, the loss is positive exactly when
    some other class has a strictly larger score than the label, that is
    when the label is not the top class. *)
Theorem margin_loss_positive (self : NES) (y : nat) (logits : list R) :
  length logits = n_class (model self) ->
  (y < n_class (model self))%nat ->
  (0 < margin_loss self y logits <->
   exists j : nat, j <> y /\ (j < n_class (model self))%nat /\
                   nth y logits 0 < nth j logits 0).
Proof.
  intros Hlen Hy. unfold margin_loss.
  rewrite logit_this_nth.
  apply Nat.ltb_lt in Hy as Hb. rewrite Hb.
  set (masked := map2 (fun l m => l - 99999 * m) logits
                      (one_hot y (n_class (model self)))).
  assert (Hself : In (nth y logits 0 - 99999) masked)
    by (apply masked_In; [ assumption | assumption | right; reflexivity ]).
  assert (Hne : masked <> [])
    by (intros E; rewrite E in Hself; destruct Hself).
  split.
  - intros Hpos.
    pose proof (reduce_max_In masked Hne) as Hin.
    apply masked_In in Hin; [ | assumption | assumption ].
    destruct Hin as [Hin | Hin]; [ | lra ].
    apply remove_nth_In_inv in Hin. destruct Hin as [j [Hj [Hl E]]].
    exists j. repeat split; [ assumption | lia | lra ].
  - intros [j [Hj [Hl Hlt]]].
    assert (Hin : In (nth j logits 0) masked).
    { apply masked_In; [ assumption | assumption | left ].
      apply remove_nth_In; [ assumption | lia ]. }
    apply reduce_max_ge in Hin. lra.
Qed.

Lemma margin_loss_positive_witness :
  0 < margin_loss tm_nes 1 [3; 1] <->
  exists j : nat, j <> 1%nat /\ (j < 2)%nat /\ nth 1 [3; 1] 0 < nth j [3; 1] 0.
Proof.
  apply (margin_loss_positive tm_nes 1 [3; 1]).
  - reflexivity.
  - simpl. lia.
Defined.

(** ** The estimated gradient on a flat loss *)

Lemma tscale_tadd (c : R) (a b : tensor) :
  tscale c (tadd a b) = tadd (tscale c a) (tscale c b).
Proof.
  unfold tscale, tadd. revert b.
  induction a as [ | u a IH ]; intros [ | w b ]; simpl; try reflexivity.
  rewrite IH. f_equal. lra.
Qed.

Lemma tscale_zeros (c : R) (n : nat) : tscale c (zeros n) = zeros n.
Proof.
  unfold tscale, zeros.
  induction n as [ | n IH ]; simpl; [ reflexivity | ].
  rewrite IH. f_equal. lra.
Qed.

Lemma tdiv_zeros (c : R) (n : nat) : tdiv (zeros n) c = zeros n.
Proof.
  unfold tdiv, zeros.
  induction n as [ | n IH ]; simpl; [ reflexivity | ].
  rewrite IH. f_equal. unfold Rdiv. ring.
Qed.

Lemma reduce_sum0_scale (c : R) (n : nat) (b : list tensor) :
  reduce_sum0 n (map (tscale c) b) = tscale c (reduce_sum0 n b).
Proof.
  induction b as [ | t b IH ].
  - symmetry. apply tscale_zeros.
  - change (tadd (tscale c t) (reduce_sum0 n (map (tscale c) b))
            = tscale c (tadd t (reduce_sum0 n b))).
    rewrite IH. symmetry. apply tscale_tadd.
Qed.

Lemma perts_sum_zero (n : nat) (half : list tensor) :
  Forall (fun t => length t = n) half ->
  reduce_sum0 n (perts half) = zeros n.
Proof.
  intros Hn. unfold perts.
  rewrite reduce_sum0_app by (try apply Forall_tneg_length; assumption).
  rewrite reduce_sum0_neg. apply tadd_tneg.
  apply reduce_sum0_length. assumption.
Qed.

Lemma grad_of_flat_loss (self : NES) (v : Vars) (half : list tensor)
    (c : R) :
  Forall (fun t => length t = x_shape (model self)) half ->
  loss self v half = repeat c (2 * length half) ->
  grad self v half = zeros (x_shape (model self)).
Proof.
  intros Hn Hloss. unfold grad. rewrite Hloss.
  rewrite map2_repeat
    by (unfold perts; rewrite length_app, length_map; lia).
  unfold reduce_mean0.
  rewrite reduce_sum0_scale, perts_sum_zero by assumption.
  rewrite tscale_zeros, !tdiv_zeros.
  destruct (string_dec (goal self) "ut"); [ reflexivity | apply tneg_zeros ].
Qed.

(** X11: when the loss is the same number at every sample of the draw, the
    antithetic pairs cancel and the estimated gradient is the zero tensor,
    for every goal.  (The draw is not empty and [sigma] is not 0, so that
    the two divisions of line 56 are by non-zero numbers.) *)
Theorem grad_flat_loss (self : NES) (v : Vars) (half : list tensor) (c : R) :
  half <> [] ->
  sigma_var v <> 0 ->
  Forall (fun t => length t = x_shape (model self)) half ->
  loss self v half = repeat c (2 * length half) ->
  grad self v half = zeros (x_shape (model self)).
Proof.
  intros _ _ Hn Hloss. apply (grad_of_flat_loss self v half c); assumption.
Qed.

Lemma tm_loss_flat :
  loss tm_nes (setup_ys_step tm_nes 0 1 tm_vars) [[1]] = [2; 2].
Proof.
  unfold loss, margin_loss. simpl. as_value.
  f_equal; [ lra | f_equal; lra ].
Qed.

Lemma grad_flat_loss_witness :
  grad tm_nes (setup_ys_step tm_nes 0 1 tm_vars) [[1]] = zeros 1.
Proof.
  apply (grad_flat_loss tm_nes (setup_ys_step tm_nes 0 1 tm_vars) [[1]] 2).
  - discriminate.
  - simpl. lra.
  - repeat constructor.
  - exact tm_loss_flat.
Defined.

Lemma clip_by_value_in_range (lo hi : R) (a : tensor) :
  Forall (fun u => lo <= u <= hi) a -> clip_by_value a lo hi = a.
Proof.
  unfold clip_by_value.
  induction 1 as [ | u a Hu Ha IH ]; simpl; [ reflexivity | ].
  rewrite IH. f_equal.
  rewrite Rmin_left by lra. apply Rmax_left. lra.
Qed.

Lemma x_adv_next_zeros (self : NES) (v : Vars) (n : nat) :
  length (x_var v) = n ->
  length (x_adv_var v) = n ->
  in_ball (rule self) (x_var v) (eps_var v) (x_adv_var v) ->
  (rule self = rule_l_2 -> 0 < eps_var v) ->
  in_range (model self) (x_adv_var v) ->
  x_adv_next self v (zeros n) = x_adv_var v.
Proof.
  intros Hx Ha Hb Hpos Hr.
  assert (Hd : x_adv_delta self v (zeros n) = tsub (x_adv_var v) (x_var v)).
  { unfold x_adv_delta. destruct (rule self).
    - rewrite l_2_step_zeros. apply tadd_zeros_r.
      apply tsub_length; assumption.
    - rewrite l_inf_step_zeros. apply tadd_zeros_r.
      apply tsub_length; assumption. }
  assert (Hp : x_adv_projected self v (zeros n) = x_adv_var v).
  { unfold in_ball in Hb. unfold x_adv_projected. rewrite Hd.
    destruct (rule self).
    - rewrite clip_by_norm_inside; [ | assumption | ].
      + apply tadd_tsub_cancel. congruence.
      + apply clip_by_norm_divisor_nonzero. apply Hpos. reflexivity.
    - rewrite clip_by_value_id by (apply max_abs_ge; assumption).
      apply tadd_tsub_cancel. congruence. }
  unfold x_adv_next. rewrite Hp. apply clip_by_value_in_range. exact Hr.
Qed.

(** X12: on a flat loss a pass leaves the candidate where it is, in both
    metrics, when the candidate is inside the ball and inside the value
    range and no division of the pass is by zero (a non-empty draw,
    [sigma] not 0 and, for ['l_2'], [0 < eps]): the attack makes no
    progress on a classifier whose margin does not react to the
    perturbations. *)
Theorem flat_loss_stationary (self : NES) (cfg : Config)
    (half : list tensor) (l : Locals) (v : Vars) (c : R) :
  half <> [] ->
  sigma_var v <> 0 ->
  (rule self = rule_l_2 -> 0 < eps_var v) ->
  Forall (fun t => length t = x_shape (model self)) half ->
  loss self v half = repeat c (2 * length half) ->
  length (x_var v) = x_shape (model self) ->
  length (x_adv_var v) = x_shape (model self) ->
  in_ball (rule self) (x_var v) (eps_var v) (x_adv_var v) ->
  in_range (model self) (x_adv_var v) ->
  x_adv_var (snd (loop_body self cfg half l v)) = x_adv_var v.
Proof.
  intros Hh Hs Hpos Hn Hloss Hx Ha Hb Hr.
  rewrite loop_body_x_adv.
  rewrite (grad_of_flat_loss self v half c) by assumption.
  apply x_adv_next_zeros; assumption.
Qed.

Lemma flat_loss_stationary_witness :
  x_adv_var (snd (loop_body tm_nes (toy_cfg 4 1) [[1]] (mkLocals [] 0%Z 1)
                    (setup_ys_step tm_nes 0 1 tm_vars))) = [0].
Proof.
  apply (flat_loss_stationary tm_nes (toy_cfg 4 1) [[1]] (mkLocals [] 0%Z 1)
           (setup_ys_step tm_nes 0 1 tm_vars) 2).
  - discriminate.
  - simpl. lra.
  - intros H. discriminate H.
  - repeat constructor.
  - exact tm_loss_flat.
  - reflexivity.
  - reflexivity.
  - simpl. unfold max_abs. simpl.
    apply Rmax_lub; [ | lra ]. apply Rabs_le. lra.
  - constructor; [ simpl; lra | constructor ].
Defined.

(** ** The size of one step *)

Lemma sign_abs_le_1 (u : R) : Rabs (sign u) <= 1.
Proof.
  unfold sign. destruct (Rlt_dec 0 u); [ apply Rabs_le; lra | ].
  destruct (Rlt_dec u 0); apply Rabs_le; lra.
Qed.

Lemma l_inf_entry_step (lo hi eps x a s : R) :
  lo <= a <= hi ->
  Rabs (a - x) <= eps ->
  Rabs (Rmax (Rmin (x + Rmax (Rmin (a - x + s) eps) (- eps)) hi) lo - a)
  <= Rabs s.
Proof.
  intros Ha Hd.
  assert (Hd' : - eps <= a - x <= eps).
  { pose proof (Rle_abs (a - x)). pose proof (Rle_abs (- (a - x))) as H2.
    rewrite Rabs_Ropp in H2. lra. }
  pose proof (clip_entry_offset (- eps) eps (a - x) s Hd') as Hin.
  set (nd := Rmax (Rmin (a - x + s) eps) (- eps)) in *.
  pose proof (clip_entry_offset lo hi a (nd - (a - x)) Ha) as Hout.
  replace (a + (nd - (a - x))) with (x + nd) in Hout by lra.
  lra.
Qed.

Lemma l_inf_step_entries (lo hi eps r : R) (a : tensor) :
  Forall (fun u => lo <= u <= hi) a ->
  forall x g : tensor,
    Forall (fun e => Rabs e <= eps) (tsub a x) ->
    Forall (fun e => Rabs e <= Rabs r)
      (tsub (clip_by_value
               (tadd x (clip_by_value
                          (tadd (tsub a x) (tscale r (tsign g)))
                          (- eps) eps)) lo hi) a).
Proof.
  induction 1 as [ | u a Hu Ha IH ]; intros x g Hd.
  - destruct x; simpl; constructor.
  - destruct x as [ | w x ]; [ constructor | ].
    destruct g as [ | z g ]; [ constructor | ].
    simpl in Hd. inversion Hd as [ | e t He Ht ]; subst.
    simpl. constructor.
    + apply Rle_trans with (Rabs (r * sign z)).
      * apply l_inf_entry_step; assumption.
      * rewrite Rabs_mult. pose proof (sign_abs_le_1 z).
        pose proof (Rabs_pos r). nra.
    + apply IH. assumption.
Qed.

(** X13: in the ['l_inf'] metric an update moves no entry of the candidate
    by more than [|lr|], when the candidate it starts from is inside the
    ball and inside the value range. *)
Theorem l_inf_step_bound (self : NES) (v : Vars) (g : tensor) :
  rule self = rule_l_inf ->
  in_range (model self) (x_adv_var v) ->
  in_ball rule_l_inf (x_var v) (eps_var v) (x_adv_var v) ->
  max_abs (tsub (x_adv_next self v g) (x_adv_var v)) <= Rabs (lr_var v).
Proof.
  intros Hr Hrange Hball.
  unfold x_adv_next, x_adv_projected, x_adv_delta. rewrite Hr.
  apply max_abs_le; [ apply Rabs_pos | ].
  apply l_inf_step_entries; [ exact Hrange | ].
  apply max_abs_ge. exact Hball.
Qed.

Lemma l_inf_step_bound_witness :
  max_abs (tsub (x_adv_next toy_nes (toy_vars (-3) 4) [6]) [-3]) <= Rabs 4.
Proof.
  apply (l_inf_step_bound toy_nes (toy_vars (-3) 4) [6]).
  - reflexivity.
  - constructor; [ simpl; lra | constructor ].
  - simpl. unfold max_abs. simpl.
    apply Rmax_lub; [ | lra ]. apply Rabs_le. lra.
Defined.

(** X14: in the ['l_2'] metric the step added to the offset (line 62) has
    norm at most [|lr|], and exactly [|lr|] as soon as the gradient's norm
    reaches the floor [1e-12]. *)
Theorem l_2_step_norm (r : R) (g : tensor) :
  norm (tdiv (tscale r g) (grad_norm g)) <= Rabs r /\
  (1 / 10 ^ 12 <= norm g ->
   norm (tdiv (tscale r g) (grad_norm g)) = Rabs r).
Proof.
  pose proof (grad_norm_pos g) as Hgn.
  pose proof (norm_nonneg g) as Hn0.
  assert (Hle : norm g <= grad_norm g) by (unfold grad_norm; apply Rmax_r).
  set (t := norm g / grad_norm g).
  assert (Ht0 : 0 <= t).
  { unfold t. apply Rmult_le_pos; [ assumption | ].
    apply Rlt_le, Rinv_0_lt_compat. assumption. }
  assert (Ht1 : t <= 1).
  { unfold t. apply Rmult_le_reg_r with (grad_norm g); [ assumption | ].
    unfold Rdiv. rewrite Rmult_assoc, Rinv_l by lra. lra. }
  assert (E : norm (tdiv (tscale r g) (grad_norm g)) = Rabs r * t).
  { unfold norm at 1. fold (sumsq (tdiv (tscale r g) (grad_norm g))).
    rewrite sumsq_scaled, <- norm_sqr.
    replace (r / grad_norm g * (r / grad_norm g) * (norm g * norm g))
      with (Rsqr (r * t)) by (unfold Rsqr, t; field; lra).
    rewrite sqrt_Rsqr_abs, Rabs_mult.
    rewrite (Rabs_right t) by lra. reflexivity. }
  rewrite E. pose proof (Rabs_pos r) as Hr.
  split; [ nra | ].
  intros Hfloor.
  assert (Hg : grad_norm g = norm g)
    by (unfold grad_norm; apply Rmax_right; assumption).
  assert (t = 1) by (unfold t; rewrite Hg; field; lra).
  subst t. nra.
Qed.

Lemma l_2_step_norm_witness :
  norm (tdiv (tscale 4 [3; 4]) (grad_norm [3; 4])) = Rabs 4.
Proof.
  apply (proj2 (l_2_step_norm 4 [3; 4])).
  apply Rle_trans with 5.
  - apply Rmult_le_reg_r with (10 ^ 12); [ apply pow_lt; lra | ].
    unfold Rdiv. rewrite Rmult_assoc, Rinv_l by (apply pow_nonzero; lra).
    simpl. lra.
  - unfold norm. simpl.
    replace (3 * 3 + (4 * 4 + 0)) with (5 * 5) by lra.
    rewrite sqrt_square by lra. lra.
Defined.

(** ** The returned tensor *)

Lemma x_adv_next_feasible (self : NES) (v : Vars) (g : tensor) :
  0 <= eps_var v ->
  (rule self = rule_l_2 -> 0 < eps_var v) ->
  in_range (model self) (x_var v) ->
  in_ball (rule self) (x_var v) (eps_var v) (x_adv_next self v g) /\
  in_range (model self) (x_adv_next self v g).
Proof.
  intros Heps Hpos Hx. unfold x_adv_next, x_adv_projected, in_ball.
  split.
  - destruct (rule self).
    + apply Rle_trans
        with (norm (clip_by_norm (x_adv_delta self v g) (eps_var v))).
      * apply sqrt_le_1_alt. apply (clip_offset_sumsq _ _ _ Hx).
      * apply clip_by_norm_bound; [ assumption | ].
        apply clip_by_norm_divisor_nonzero. apply Hpos. reflexivity.
    + apply max_abs_le; [ assumption | ].
      apply clip_offset_abs; [ exact Hx | ].
      apply clip_sym_abs. assumption.
  - destruct (rule self); apply in_range_bounds; exact Hx.
Qed.

Lemma attack_loop_feasible (self : NES) (cfg : Config) (y y_target : nat)
    (x : tensor) (eps : R) (draws : list (list tensor)) :
  0 <= eps ->
  (rule self = rule_l_2 -> 0 < eps) ->
  in_range (model self) x ->
  forall (l : Locals) (v : Vars) (r : tensor) (q : Z),
    x_var v = x -> eps_var v = eps ->
    in_ball (rule self) x eps (x_adv_var v) ->
    in_range (model self) (x_adv_var v) ->
    attack_loop self cfg y y_target draws l v = Some (r, q) ->
    in_ball (rule self) x eps r /\ in_range (model self) r.
Proof.
  intros Heps Hpos Hx.
  induction draws as [ | half draws IH ]; intros l v r q Ex Ee Hb Hr H;
    simpl in H.
  - destruct (queries l <? max_queries cfg)%Z; [ discriminate | ].
    injection H as E _. subst r. split; assumption.
  - destruct (queries l <? max_queries cfg)%Z.
    + pose proof (loop_body_x_adv self cfg half l v) as Ha.
      assert (Fx : x_var (snd (loop_body self cfg half l v)) = x_var v
                   /\ eps_var (snd (loop_body self cfg half l v)) = eps_var v).
      { rewrite loop_body_eq.
        destruct (tune_lr_vars self cfg (loss self v half)
                    (mkLocals (last_loss l)
                       (queries l + Z.of_nat (samples_per_draw self))
                       (cur_lr l))
                    (update_x_adv_step self v half)) as [F1 [_ F3]].
        rewrite F1, F3. split; reflexivity. }
      destruct Fx as [Fx Fe].
      destruct (x_adv_next_feasible self v (grad self v half)) as [Nb Nr];
        [ rewrite Ee; assumption | rewrite Ee; assumption
        | rewrite Ex; assumption | ].
      rewrite Ex, Ee in Nb.
      destruct (loop_body self cfg half l v) as [l' v'].
      simpl in Ha, Fx, Fe. rewrite <- Ha in Nb, Nr.
      destruct (is_adversarial self y y_target v').
      * injection H as E _. subst r. split; assumption.
      * apply (IH l' v' r q); try assumption; congruence.
    + injection H as E _. subst r. split; assumption.
Qed.

(** X15: the tensor that [attack] returns, by early exit, by success or on
    an exhausted budget, is inside the ball of radius [eps] around the
    input in the metric of the attack and inside the model's value range,
    for an input inside that range and [0 <= eps], in a run none of whose
    passes divides by zero: [samples_per_draw] is positive, no draw is
    empty, [sigma] is not 0 and, for ['l_2'], [0 < eps]. *)
Theorem attack_returns_feasible (self : NES) (cfg : Config)
    (y y_target : nat) (draws : list (list tensor)) (v : Vars)
    (x r : tensor) (q : Z) :
  (0 < samples_per_draw self)%nat ->
  Forall (fun half : list tensor => half <> []) draws ->
  sigma_var v <> 0 ->
  0 <= eps_var v ->
  (rule self = rule_l_2 -> 0 < eps_var v) ->
  in_range (model self) x ->
  attack self cfg y y_target draws v x = Some (r, q) ->
  in_ball (rule self) x (eps_var v) r /\ in_range (model self) r.
Proof.
  intros _ _ _ Heps Hpos Hx H. unfold attack in H.
  destruct (attack_setup self cfg y y_target v x) as [l v1] eqn:E.
  assert (Ex : x_var v1 = x)
    by (unfold attack_setup in E; injection E as _ E; subst v1; reflexivity).
  assert (Ea : x_adv_var v1 = x)
    by (unfold attack_setup in E; injection E as _ E; subst v1; reflexivity).
  assert (Ee : eps_var v1 = eps_var v)
    by (unfold attack_setup in E; injection E as _ E; subst v1; reflexivity).
  destruct (is_adversarial self y y_target v1).
  - injection H as Hr _. subst r.
    split; [ apply in_ball_origin; assumption | assumption ].
  - apply (attack_loop_feasible self cfg y y_target x (eps_var v) draws
             Heps Hpos Hx l v1 r q); try assumption.
    + rewrite Ea. apply in_ball_origin. assumption.
    + rewrite Ea. assumption.
Qed.

Lemma attack_returns_feasible_witness :
  in_ball rule_l_inf [1] 10 [-3] /\ in_range toy_model [-3].
Proof.
  apply (attack_returns_feasible toy_nes (toy_cfg 1 1) 0 0 [[[1]]]
           (toy_vars 0 0) [1] [-3] 2%Z).
  - simpl. lia.
  - constructor; [ discriminate | constructor ].
  - simpl. lra.
  - simpl. lra.
  - intros H. discriminate H.
  - constructor; [ simpl; lra | constructor ].
  - exact toy_attack_budget_1.
Defined.
